(** * FIFO queueing discipline (pkg/tcpip/link/qdisc/fifo/fifo.go)

    A shallow embedding of the [discipline] and its [queueDispatcher]s as a
    transition system.  Every goroutine (a caller inside [WritePacket], a
    caller inside [Close], the [dispatchLoop] of a shard) is a small program
    counter; one transition is one atomic action of the source: an atomic
    load or store, a waker assertion, a [Sleeper.Fetch], a call on a packet
    list or on the lower link, or one whole critical section of [qd.mu]
    (nothing else can look at a shard between [Lock] and [Unlock], so the
    states of the system are exactly the lock-quiescent ones). *)

From Stdlib Require Import ZArith Lia Bool List.
From stdpp Require Import base option list.

Local Open Scope Z_scope.

(** ** Go integers *)

(** [int] is 64 bits wide on the platforms the package builds for
    (amd64, arm64); arithmetic wraps around in two's complement. *)
Definition int_bits : Z := 64.
Definition max_int : Z := 2 ^ (int_bits - 1) - 1.
Definition min_int : Z := - 2 ^ (int_bits - 1).

Definition wrap_int (z : Z) : Z :=
  (z + 2 ^ (int_bits - 1)) mod 2 ^ int_bits - 2 ^ (int_bits - 1).

(** [int(h)] for [h : uint32]: the value is zero-extended. *)
Definition int_of_uint32 (h : Z) : Z := wrap_int (h mod 2 ^ 32).

(** Go's [%] truncates towards zero. *)
Definition int_rem (a b : Z) : Z := Z.rem a b.

(** ** Constants *)

Definition BatchSize : Z := 32.
Definition qDiscClosed : Z := 1.

(** ** Packets and packet lists (package stack) *)

(** A [*stack.PacketBuffer]: the identity of the buffer and its [Hash]
    field (a [uint32]). *)
Record PacketBuffer := mkPkt { pkt_id : nat; Hash : Z }.

(** The reference counts of all packet buffers, by buffer identity. *)
Definition heap := nat -> Z.

(** Modelled from the spec: [PacketBuffer.IncRef] is not in the sources at
    hand; the packet takes part in a shared-ownership scheme whose count is
    incremented when the core takes ownership. *)
Definition IncRef (pkt : PacketBuffer) (h : heap) : heap :=
  fun x => if Nat.eqb x (pkt_id pkt) then h x + 1 else h x.

(** Modelled from the spec: [PacketBuffer.DecRef] is not in the sources at
    hand; the count is decremented when the core relinquishes ownership. *)
Definition DecRef (pkt : PacketBuffer) (h : heap) : heap :=
  fun x => if Nat.eqb x (pkt_id pkt) then h x - 1 else h x.

(** Modelled from the spec: [stack.PacketBufferList] is not in the sources
    at hand; it is an ordered sequence of packets with push-to-back,
    pop-from-front and a running count. *)
Definition PacketBufferList := list PacketBuffer.

Definition PushBack (l : PacketBufferList) (pkt : PacketBuffer) : PacketBufferList :=
  l ++ [pkt].

Definition Len (l : PacketBufferList) : Z := Z.of_nat (length l).

(** Modelled from the spec: [PacketBufferList.DecRef] releases the ownership
    of every packet of the list, front to back. *)
Definition List_DecRef (l : PacketBufferList) (h : heap) : heap :=
  fold_left (fun h' pkt => DecRef pkt h') l h.

Definition Reset (l : PacketBufferList) : PacketBufferList := [].

(** ** Wakers and sleepers (package sleep) *)

(** The address of a [sleep.Waker], as the [switch] of [dispatchLoop] sees
    it: one of the two wakers of the dispatcher itself, or some other. *)
Inductive waker_id :=
| NewPacketWaker
| CloseWaker
| ForeignWaker (k : nat).

Definition waker_id_eqb (a b : waker_id) : bool :=
  match a, b with
  | NewPacketWaker, NewPacketWaker => true
  | CloseWaker, CloseWaker => true
  | ForeignWaker j, ForeignWaker k => Nat.eqb j k
  | _, _ => false
  end.

(** ** The dispatcher *)

Inductive Error := ErrClosedForSend | ErrNoBufferSpace.

(** [queueDispatcher]: [lower] is the log of [WritePackets] calls kept in the
    state, [mu] is implicit in the atomicity of the critical sections; a
    waker is its asserted flag. *)
Record queueDispatcher := mkQD {
  limit : Z;
  queue : PacketBufferList;
  used : Z;
  newPacketWaker : bool;
  closeWaker : bool
}.

(** Where the goroutine running [dispatchLoop] stands. *)
Inductive loop_pc :=
| AtFetch       (* line 97: parked in s.Fetch(true) *)
| AtDrain       (* lines 112 and 124: about to take qd.mu for the inner loop *)
| AtWrite       (* line 121: qd.mu released, about to call WritePackets *)
| AtRelease     (* lines 122-123: batch.DecRef(); batch.Reset() *)
| AtShutdown    (* line 100: closeWaker fetched, about to take qd.mu *)
| Returned      (* line 108 *)
| Panicked.     (* line 110 *)

(** A dispatcher together with the goroutine started for it by [New]:
    the program counter and the local variable [batch]. *)
Record worker := mkWorker {
  qd : queueDispatcher;
  pc : loop_pc;
  batch : PacketBufferList
}.

(** What the system has done so far, oldest first. *)
Inductive event :=
| Enqueued (i : nat) (pkt : PacketBuffer)       (* lines 144-146 *)
| Written (i : nat) (b : PacketBufferList)      (* line 121 *)
| Released (i : nat) (b : PacketBufferList)     (* line 122 *)
| Discarded (i : nat) (pkt : PacketBuffer).     (* lines 102-104 *)

(** ** Callers *)

Inductive wp_pc :=
| WP_Load                     (* line 137 *)
| WP_Locked                   (* lines 140-148 *)
| WP_Assert (i : nat)         (* line 152 *)
| WP_Done (r : option Error)  (* lines 138, 150, 153 *)
| WP_Panic.                   (* run-time panic at line 140 *)

Inductive close_pc :=
| CL_Store                    (* line 157 *)
| CL_Assert (i : nat)         (* lines 158-160 *)
| CL_Wait                     (* line 161 *)
| CL_Done.

Inductive thread :=
| In_WritePacket (pkt : PacketBuffer) (p : wp_pc)
| In_Close (p : close_pc).

(** ** The state of the system *)

Record state := mkState {
  closed : Z;                   (* discipline.closed, an int32 *)
  dispatchers : list worker;    (* discipline.dispatchers and their loops *)
  wg : Z;                       (* discipline.wg: loops not yet returned *)
  refs : heap;
  threads : list thread;
  trace : list event;
  aborted : bool                (* some goroutine panicked *)
}.

Definition with_closed (c : Z) (s : state) : state :=
  mkState c (dispatchers s) (wg s) (refs s) (threads s) (trace s) (aborted s).
Definition with_dispatchers (d : list worker) (s : state) : state :=
  mkState (closed s) d (wg s) (refs s) (threads s) (trace s) (aborted s).
Definition with_wg (n : Z) (s : state) : state :=
  mkState (closed s) (dispatchers s) n (refs s) (threads s) (trace s) (aborted s).
Definition with_refs (h : heap) (s : state) : state :=
  mkState (closed s) (dispatchers s) (wg s) h (threads s) (trace s) (aborted s).
Definition with_threads (t : list thread) (s : state) : state :=
  mkState (closed s) (dispatchers s) (wg s) (refs s) t (trace s) (aborted s).
Definition with_trace (t : list event) (s : state) : state :=
  mkState (closed s) (dispatchers s) (wg s) (refs s) (threads s) t (aborted s).
Definition with_aborted (b : bool) (s : state) : state :=
  mkState (closed s) (dispatchers s) (wg s) (refs s) (threads s) (trace s) b.

Definition set_worker (i : nat) (x : worker) (s : state) : state :=
  with_dispatchers (<[i := x]> (dispatchers s)) s.

Definition log (e : event) (s : state) : state :=
  with_trace (trace s ++ [e]) s.

(** ** New *)

(** [New(lower, n, queueLen)]: [make] panics for a negative [n]; every
    dispatcher gets [limit = queueLen], an empty queue, and a goroutine that
    enters [dispatchLoop] with an empty [batch].  [h] is the heap the
    discipline is created in.  [make] also panics for a count too large to
    allocate; that bound is the runtime's and is left out, so the
    disciplines considered here are at least those the code can create. *)
Definition New_worker (queueLen : Z) : worker :=
  mkWorker (mkQD queueLen [] 0 false false) AtFetch [].

Definition New (n queueLen : Z) (h : heap) : option state :=
  if n <? 0 then None
  else Some (mkState 0 (replicate (Z.to_nat n) (New_worker queueLen)) n h [] [] false).

(** ** WritePacket *)

(** line 140: [int(pkt.Hash) % len(d.dispatchers)]. *)
Definition shard_index (pkt : PacketBuffer) (n : Z) : Z :=
  int_rem (int_of_uint32 (Hash pkt)) n.

(** line 140: [&d.dispatchers[int(pkt.Hash)%len(d.dispatchers)]].  [None] is
    a run-time panic: division by zero, or an index out of range. *)
Definition select_shard (pkt : PacketBuffer) (s : state) : option (nat * worker) :=
  let n := Z.of_nat (length (dispatchers s)) in
  if n =? 0 then None
  else
    let idx := shard_index pkt n in
    if idx <? 0 then None
    else
      match dispatchers s !! Z.to_nat idx with
      | None => None
      | Some x => Some (Z.to_nat idx, x)
      end.

(** Lines 140-148, the critical section of [WritePacket].  [None] is a
    run-time panic; otherwise the new state and the shard whose waker is to
    be asserted, if the packet was queued. *)
Definition WritePacket_locked (pkt : PacketBuffer) (s : state)
  : option (option nat * state) :=
  match select_shard pkt s with
  | None => None
  | Some (i, x) =>
      let haveSpace := used (qd x) <? limit (qd x) in
      if haveSpace then
        let q := mkQD (limit (qd x)) (PushBack (queue (qd x)) pkt)
                      (wrap_int (used (qd x) + 1))
                      (newPacketWaker (qd x)) (closeWaker (qd x)) in
        Some (Some i,
              log (Enqueued i pkt)
                (set_worker i (mkWorker q (pc x) (batch x))
                   (with_refs (IncRef pkt (refs s)) s)))
      else Some (None, s)
  end.

(** line 152: [qd.newPacketWaker.Assert()]. *)
Definition Assert_newPacket (i : nat) (s : state) : state :=
  match dispatchers s !! i with
  | None => s
  | Some x =>
      set_worker i
        (mkWorker (mkQD (limit (qd x)) (queue (qd x)) (used (qd x)) true (closeWaker (qd x)))
                  (pc x) (batch x)) s
  end.

(** line 159: [d.dispatchers[i].closeWaker.Assert()]. *)
Definition Assert_close (i : nat) (s : state) : state :=
  match dispatchers s !! i with
  | None => s
  | Some x =>
      set_worker i
        (mkWorker (mkQD (limit (qd x)) (queue (qd x)) (used (qd x)) (newPacketWaker (qd x)) true)
                  (pc x) (batch x)) s
  end.

(** [WritePacket] run without anything else in between: the error returned
    ([None] for [nil]) and the new state; the outer [None] is a panic. *)
Definition WritePacket (pkt : PacketBuffer) (s : state)
  : option (option Error * state) :=
  if closed s =? qDiscClosed then Some (Some ErrClosedForSend, s)
  else
    match WritePacket_locked pkt s with
    | None => None
    | Some (None, s') => Some (Some ErrNoBufferSpace, s')
    | Some (Some i, s') => Some (None, Assert_newPacket i s')
    end.

(** ** dispatchLoop *)

(** Modelled from the spec: package sleep is not in the sources at hand.  A
    sleeper waits on the wakers registered with it; [Fetch(true)] returns one
    registered waker that has been asserted and clears it (assertions
    coalesce: a waker is asserted or not), and blocks when there is none.
    Nothing is known about a waker of somebody else, which is taken to be
    asserted at any time. *)
Definition asserted (q : queueDispatcher) (w : waker_id) : bool :=
  match w with
  | NewPacketWaker => newPacketWaker q
  | CloseWaker => closeWaker q
  | ForeignWaker _ => true
  end.

Definition clear_waker (w : waker_id) (q : queueDispatcher) : queueDispatcher :=
  match w with
  | NewPacketWaker => mkQD (limit q) (queue q) (used q) false (closeWaker q)
  | CloseWaker => mkQD (limit q) (queue q) (used q) (newPacketWaker q) false
  | ForeignWaker _ => q
  end.

Definition Fetch (registered : list waker_id) (q : queueDispatcher) (w : waker_id)
  : option queueDispatcher :=
  if existsb (waker_id_eqb w) registered && asserted q w
  then Some (clear_waker w q) else None.

(** lines 90-92: the sleeper of the loop. *)
Definition loop_sleeper : list waker_id := [NewPacketWaker; CloseWaker].

(** lines 97-111: the [switch] on the waker that [Fetch] returned. *)
Definition dispatch_switch (w : waker_id) : loop_pc :=
  match w with
  | NewPacketWaker => AtDrain
  | CloseWaker => AtShutdown
  | ForeignWaker _ => Panicked
  end.

(** lines 113-120 and 126: the inner loop from one [qd.mu.Lock()] to the
    next [qd.mu.Unlock()].  [pkt :: rest] is [qd.queue.Front()] not being nil
    followed by [qd.queue.Remove(pkt)]; the result is the queue, [used] and
    [batch] at the unlock and whether it is the unlock of line 120 (a batch
    is to be written) or that of line 126 (the queue is empty). *)
Fixpoint drain (q : PacketBufferList) (u : Z) (b : PacketBufferList)
  : PacketBufferList * Z * PacketBufferList * bool :=
  match q with
  | [] => (q, u, b, false)
  | pkt :: rest =>
      let u' := wrap_int (u - 1) in
      let b' := PushBack b pkt in
      if (Len b' <? BatchSize) && negb (u' =? 0)
      then drain rest u' b'
      else (rest, u', b', true)
  end.

(** lines 101-105: the loop of the close branch. *)
Fixpoint shutdown_drain (i : nat) (q : PacketBufferList) (u : Z) (h : heap)
    (tr : list event) : PacketBufferList * Z * heap * list event :=
  match q with
  | [] => (q, u, h, tr)
  | p :: rest =>
      shutdown_drain i rest (wrap_int (u - 1)) (DecRef p h) (tr ++ [Discarded i p])
  end.

(** lines 97-111, once [Fetch] has returned waker [w] and left the
    dispatcher as [q']: a panic kills the program. *)
Definition on_wake (i : nat) (x : worker) (q' : queueDispatcher) (w : waker_id)
    (s : state) : state :=
  match dispatch_switch w with
  | Panicked => with_aborted true (set_worker i (mkWorker q' Panicked (batch x)) s)
  | next => set_worker i (mkWorker q' next (batch x)) s
  end.

(** One action of the loop of shard [i]; [w] is the waker [Fetch] returns
    when the loop is parked.  [None]: the loop cannot move (blocked, returned
    or dead). *)
Definition dispatchLoop_step (i : nat) (w : waker_id) (s : state) : option state :=
  match dispatchers s !! i with
  | None => None
  | Some x =>
      match pc x with
      | AtFetch =>
          match Fetch loop_sleeper (qd x) w with
          | None => None
          | Some q' => Some (on_wake i x q' w s)
          end
      | AtDrain =>
          let '(q', u', b', flush) := drain (queue (qd x)) (used (qd x)) (batch x) in
          let q2 := mkQD (limit (qd x)) q' u' (newPacketWaker (qd x)) (closeWaker (qd x)) in
          Some (set_worker i (mkWorker q2 (if flush then AtWrite else AtFetch) b') s)
      | AtWrite =>
          Some (log (Written i (batch x)) (set_worker i (mkWorker (qd x) AtRelease (batch x)) s))
      | AtRelease =>
          Some (log (Released i (batch x))
                  (set_worker i (mkWorker (qd x) AtDrain (Reset (batch x)))
                     (with_refs (List_DecRef (batch x) (refs s)) s)))
      | AtShutdown =>
          let '(q', u', h', tr') :=
            shutdown_drain i (queue (qd x)) (used (qd x)) (refs s) (trace s) in
          let q2 := mkQD (limit (qd x)) q' u' (newPacketWaker (qd x)) (closeWaker (qd x)) in
          Some (with_wg (wg s - 1)
                  (with_trace tr'
                     (set_worker i (mkWorker q2 Returned (batch x))
                        (with_refs (List_DecRef q' h') s))))
      | Returned | Panicked => None
      end
  end.

(** ** Callers, step by step *)

Definition thread_step (t : thread) (s : state) : option (thread * state) :=
  match t with
  | In_WritePacket pkt WP_Load =>
      if closed s =? qDiscClosed
      then Some (In_WritePacket pkt (WP_Done (Some ErrClosedForSend)), s)
      else Some (In_WritePacket pkt WP_Locked, s)
  | In_WritePacket pkt WP_Locked =>
      match WritePacket_locked pkt s with
      | None => Some (In_WritePacket pkt WP_Panic, with_aborted true s)
      | Some (None, s') => Some (In_WritePacket pkt (WP_Done (Some ErrNoBufferSpace)), s')
      | Some (Some i, s') => Some (In_WritePacket pkt (WP_Assert i), s')
      end
  | In_WritePacket pkt (WP_Assert i) =>
      Some (In_WritePacket pkt (WP_Done None), Assert_newPacket i s)
  | In_WritePacket _ (WP_Done _) => None
  | In_WritePacket _ WP_Panic => None
  | In_Close CL_Store => Some (In_Close (CL_Assert 0), with_closed qDiscClosed s)
  | In_Close (CL_Assert i) =>
      if Nat.ltb i (length (dispatchers s))
      then Some (In_Close (CL_Assert (S i)), Assert_close i s)
      else Some (In_Close CL_Wait, s)
  | In_Close CL_Wait => if wg s =? 0 then Some (In_Close CL_Done, s) else None
  | In_Close CL_Done => None
  end.

(** ** The transition system *)

Inductive label :=
| Call_WritePacket (pkt : PacketBuffer)   (* somebody calls d.WritePacket(pkt) *)
| Call_Close                              (* somebody calls d.Close() *)
| Thread (k : nat)                        (* caller number k moves *)
| Loop (i : nat) (w : waker_id).          (* the loop of shard i moves *)

Definition exec (a : label) (s : state) : option state :=
  if aborted s then None
  else
    match a with
    | Call_WritePacket pkt =>
        Some (with_threads (threads s ++ [In_WritePacket pkt WP_Load]) s)
    | Call_Close => Some (with_threads (threads s ++ [In_Close CL_Store]) s)
    | Thread k =>
        match threads s !! k with
        | None => None
        | Some t =>
            match thread_step t s with
            | None => None
            | Some (t', s') => Some (with_threads (<[k := t']> (threads s')) s')
            end
        end
    | Loop i w => dispatchLoop_step i w s
    end.

Fixpoint run (ls : list label) (s : state) : option state :=
  match ls with
  | [] => Some s
  | a :: ls' =>
      match exec a s with
      | None => None
      | Some s' => run ls' s'
      end
  end.

(** ** Reading the trace *)

(** The packets queued on shard [i], in the order of their [PushBack]. *)
Definition enqueued_of (i : nat) (tr : list event) : PacketBufferList :=
  flat_map (fun e => match e with
                     | Enqueued j pkt => if Nat.eqb i j then [pkt] else []
                     | _ => []
                     end) tr.

(** The batches shard [i] passed to [WritePackets], in the order of the calls. *)
Definition batches_of (i : nat) (tr : list event) : list PacketBufferList :=
  flat_map (fun e => match e with
                     | Written j b => if Nat.eqb i j then [b] else []
                     | _ => []
                     end) tr.

(** The packets shard [i] handed to the transmitter, in order. *)
Definition written_of (i : nat) (tr : list event) : PacketBufferList :=
  concat (batches_of i tr).

(** The packets shard [i] released after a [WritePackets] call. *)
Definition released_of (i : nat) (tr : list event) : PacketBufferList :=
  flat_map (fun e => match e with
                     | Released j b => if Nat.eqb i j then b else []
                     | _ => []
                     end) tr.

(** The packets shard [i] threw away when it shut down. *)
Definition discarded_of (i : nat) (tr : list event) : PacketBufferList :=
  flat_map (fun e => match e with
                     | Discarded j pkt => if Nat.eqb i j then [pkt] else []
                     | _ => []
                     end) tr.

(** Every batch ever passed to [WritePackets], by any shard. *)
Definition all_batches (tr : list event) : list PacketBufferList :=
  flat_map (fun e => match e with Written _ b => [b] | _ => [] end) tr.

(** How often buffer [x] occurs in a list. *)
Definition occ (x : nat) (l : PacketBufferList) : Z :=
  Z.of_nat (length (List.filter (fun pkt => Nat.eqb x (pkt_id pkt)) l)).


(** * The vocabulary of the properties *)

(** The values of type [int]. *)
Definition is_int (z : Z) : Prop := min_int <= z <= max_int.

(** [used] after the loop of lines 101-105 has emptied [q]. *)
Fixpoint used_after (q : PacketBufferList) (u : Z) : Z :=
  match q with
  | [] => u
  | _ :: rest => used_after rest (wrap_int (u - 1))
  end.

(** Every transition leaves all shards alone or changes exactly one; the
    changes a shard can see are these, each with the events it appends to
    the trace and the heap it leaves. *)
Inductive local_step (i : nat) (x : worker) (h : heap)
  : worker -> list event -> heap -> Prop :=
| LS_enqueue pkt :
    used (qd x) < limit (qd x) ->
    local_step i x h
      (mkWorker (mkQD (limit (qd x)) (PushBack (queue (qd x)) pkt)
                      (wrap_int (used (qd x) + 1))
                      (newPacketWaker (qd x)) (closeWaker (qd x)))
                (pc x) (batch x))
      [Enqueued i pkt] (IncRef pkt h)
| LS_assert nw cw :
    local_step i x h
      (mkWorker (mkQD (limit (qd x)) (queue (qd x)) (used (qd x)) nw cw)
                (pc x) (batch x))
      [] h
| LS_fetch w :
    pc x = AtFetch -> w = NewPacketWaker \/ w = CloseWaker ->
    local_step i x h
      (mkWorker (clear_waker w (qd x)) (dispatch_switch w) (batch x)) [] h
| LS_drain q' u' b' flush :
    pc x = AtDrain ->
    drain (queue (qd x)) (used (qd x)) (batch x) = (q', u', b', flush) ->
    local_step i x h
      (mkWorker (mkQD (limit (qd x)) q' u' (newPacketWaker (qd x)) (closeWaker (qd x)))
                (if flush then AtWrite else AtFetch) b')
      [] h
| LS_write :
    pc x = AtWrite ->
    local_step i x h (mkWorker (qd x) AtRelease (batch x)) [Written i (batch x)] h
| LS_release :
    pc x = AtRelease ->
    local_step i x h (mkWorker (qd x) AtDrain [])
      [Released i (batch x)] (List_DecRef (batch x) h)
| LS_shutdown :
    pc x = AtShutdown ->
    local_step i x h
      (mkWorker (mkQD (limit (qd x)) [] (used_after (queue (qd x)) (used (qd x)))
                      (newPacketWaker (qd x)) (closeWaker (qd x)))
                Returned (batch x))
      (map (Discarded i) (queue (qd x))) (List_DecRef (queue (qd x)) h).

(** A transition that changes no shard, and one that changes shard [j]. *)
Definition untouched (s s' : state) : Prop :=
  dispatchers s' = dispatchers s /\ trace s' = trace s /\ refs s' = refs s.

Definition touches (j : nat) (s s' : state) : Prop :=
  exists x x' evs,
    dispatchers s !! j = Some x /\
    local_step j x (refs s) x' evs (refs s') /\
    dispatchers s' = <[j := x']> (dispatchers s) /\
    trace s' = trace s ++ evs.

(** ** Invariants *)

Section Invariants.

(** The capacity every shard was created with. *)
Variable queueLen : Z.

(** [batch] is empty except between the unlock of line 120 and the
    [Reset] of line 123. *)
Definition batch_ok (x : worker) : Prop :=
  match pc x with
  | AtWrite | AtRelease => 1 <= Len (batch x) <= BatchSize
  | _ => batch x = []
  end.

(** What holds of shard [i] and its loop, given the trace: [used] is the
    length of the queue and within the capacity; the packets queued on the
    shard are those released after a write, those discarded at shutdown,
    the batch and the queue, in this order; the packets written are those
    released and the batch that is being released. *)
Record shard_inv (i : nat) (x : worker) (tr : list event) : Prop := {
  si_limit : limit (qd x) = queueLen;
  si_used : used (qd x) = Len (queue (qd x));
  si_cap : Len (queue (qd x)) <= Z.max 0 queueLen;
  si_batch : batch_ok x;
  si_pc : pc x <> Panicked;
  si_enq :
    enqueued_of i tr
    = released_of i tr ++ discarded_of i tr ++ batch x ++ queue (qd x);
  si_wr :
    written_of i tr
    = released_of i tr ++ (match pc x with AtRelease => batch x | _ => [] end);
  si_disc : discarded_of i tr = [] \/ pc x = Returned
}.

(** What holds of the system: every shard keeps its invariant, every
    batch written had between 1 and [BatchSize] packets, and with at least
    one shard nothing has panicked. *)
Record state_inv (s : state) : Prop := {
  inv_shards :
    forall i x, dispatchers s !! i = Some x -> shard_inv i x (trace s);
  inv_batches :
    Forall (fun b => 1 <= Len b <= BatchSize) (all_batches (trace s));
  inv_aborted : dispatchers s <> [] -> aborted s = false
}.

End Invariants.

(** The loop has fetched its close waker. *)
Definition shut_down (x : worker) : Prop := pc x = AtShutdown \/ pc x = Returned.

(** A caller is quiet when it is not between the load of [closed] and the
    critical section of [WritePacket]. *)
Definition quiet (t : thread) : Prop :=
  match t with
  | In_WritePacket _ WP_Locked => False
  | _ => True
  end.

(** Everything is over: [closed] is set, every loop has returned and no
    caller is on its way into a critical section. *)
Record finished (s : state) : Prop := {
  fin_closed : closed s = qDiscClosed;
  fin_loops : Forall (fun x => pc x = Returned) (dispatchers s);
  fin_threads : Forall quiet (threads s)
}.

(** The packets acquired (line 144) and the packets released (lines 103
    and 122) so far, by any shard. *)
Definition acquired (tr : list event) : PacketBufferList :=
  flat_map (fun e => match e with Enqueued _ pkt => [pkt] | _ => [] end) tr.

Definition dropped (tr : list event) : PacketBufferList :=
  flat_map (fun e => match e with
                     | Released _ b => b
                     | Discarded _ pkt => [pkt]
                     | _ => []
                     end) tr.

(** What C7 says, for every capacity [New] can be given. *)
Definition used_within_limit : Prop :=
  forall n queueLen h s0 ls s i x,
    is_int queueLen ->
    New n queueLen h = Some s0 ->
    run ls s0 = Some s ->
    dispatchers s !! i = Some x ->
    used (qd x) = Len (queue (qd x)) /\ 0 <= used (qd x) <= limit (qd x).

(** ** The wait group, the wakers and the callers *)

(** 1 for a loop that has not returned, 0 for one that has. *)
Definition running (x : worker) : Z :=
  match pc x with Returned => 0 | _ => 1 end.

(** The number of loops that have not returned. *)
Definition loops_running (d : list worker) : Z :=
  fold_right (fun x acc => running x + acc) 0 d.

(** How often buffer [p] is held by the discipline: once for each place
    it has in a queue or in a batch. *)
Definition held (p : nat) (d : list worker) : Z :=
  fold_right (fun x acc => (occ p (batch x) + occ p (queue (qd x))) + acc) 0 d.

(** Some caller of [WritePacket] has queued a packet on shard [i] and is
    about to assert the waker (between lines 148 and 152). *)
Definition about_to_wake (i : nat) (ts : list thread) : Prop :=
  exists k pkt, ts !! k = Some (In_WritePacket pkt (WP_Assert i)).

(** No wake-up is lost: a loop parked in [Fetch] with packets in its queue
    has its new-packet waker asserted, or is about to. *)
Definition wake_ok (s : state) : Prop :=
  forall i x,
    dispatchers s !! i = Some x ->
    pc x = AtFetch -> queue (qd x) <> [] ->
    newPacketWaker (qd x) = true \/ about_to_wake i (threads s).

(** Some call of [Close] has returned. *)
Definition Close_returned (s : state) : Prop :=
  In (In_Close CL_Done) (threads s).

(** What the wait group knows: its counter is the number of loops that have
    not returned, and a call of [Close] has returned only if it is 0. *)
Definition wg_inv (s : state) : Prop :=
  wg s = loops_running (dispatchers s) /\ (Close_returned s -> wg s = 0).

(** The shutdown signal has reached the loop: its close waker is asserted
    or the loop has fetched it already. *)
Definition signalled (x : worker) : Prop :=
  closeWaker (qd x) = true \/ shut_down x.

(** The shards the [for] of lines 158-160 has been through when a call of
    [Close] stands at [p]. *)
Definition covered (p : close_pc) (i : nat) : Prop :=
  match p with
  | CL_Store => False
  | CL_Assert j => (i < j)%nat
  | CL_Wait | CL_Done => True
  end.

(** Every shard a call of [Close] has been through is signalled. *)
Definition close_ok (s : state) : Prop :=
  forall k p i x,
    threads s !! k = Some (In_Close p) ->
    dispatchers s !! i = Some x ->
    covered p i -> signalled x.



(** * Scenarios *)

(** One shard of capacity 4 in a heap where every buffer is held once by
    its owner; five packets without a hash are submitted one after the
    other, then the loop wakes up and drains the queue. *)
Definition demo_heap : heap := fun _ => 1.

Definition demo_init : state :=
  mkState 0 [New_worker 4] 1 demo_heap [] [] false.

Definition demo_pkt (k : nat) : PacketBuffer := mkPkt k 0.

Definition demo_schedule : list label :=
  [Call_WritePacket (demo_pkt 1); Thread 0; Thread 0; Thread 0;
   Call_WritePacket (demo_pkt 2); Thread 1; Thread 1; Thread 1;
   Call_WritePacket (demo_pkt 3); Thread 2; Thread 2; Thread 2;
   Call_WritePacket (demo_pkt 4); Thread 3; Thread 3; Thread 3;
   Call_WritePacket (demo_pkt 5); Thread 4; Thread 4;
   Loop 0 NewPacketWaker; Loop 0 NewPacketWaker; Loop 0 NewPacketWaker].

(** The state the scenario ends in: the batch has been written and is
    about to be released. *)
Definition demo_final : state :=
  Eval vm_compute in
    match run demo_schedule demo_init with Some s => s | None => demo_init end.

(** A shard of capacity 1 that holds one packet. *)
Definition full_state : state :=
  mkState 0 [mkWorker (mkQD 1 [demo_pkt 1] 1 false false) AtFetch []] 1
          demo_heap [] [Enqueued 0 (demo_pkt 1)] false.

(** Two shards and a packet whose hash is 3: it goes to shard 1. *)
Definition two_shards : state :=
  mkState 0 [New_worker 4; New_worker 4] 2 demo_heap [] [] false.

(** [Close] is called with three packets in the queue, and the loop wakes
    up on its close waker. *)
Definition close_schedule : list label :=
  [Call_WritePacket (demo_pkt 1); Thread 0; Thread 0; Thread 0;
   Call_WritePacket (demo_pkt 2); Thread 1; Thread 1; Thread 1;
   Call_WritePacket (demo_pkt 3); Thread 2; Thread 2; Thread 2;
   Call_Close; Thread 3; Thread 3; Thread 3;
   Loop 0 CloseWaker].

(** The state that schedule ends in, and the shard in it. *)
Definition close_state : state :=
  Eval vm_compute in
    match run close_schedule demo_init with Some s => s | None => demo_init end.

Definition close_worker : worker :=
  mkWorker (mkQD 4 [demo_pkt 1; demo_pkt 2; demo_pkt 3] 3 true false) AtShutdown [].

(** A caller loads [closed] (0) in [WritePacket]; then [Close] runs from its
    first line to its last, the loop of the shard waking up on the close
    waker and returning in between; then the caller goes on: critical
    section, waker, [return nil]. *)
Definition race_schedule : list label :=
  [Call_WritePacket (demo_pkt 1); Thread 0;
   Call_Close; Thread 1; Thread 1; Thread 1;
   Loop 0 CloseWaker; Loop 0 CloseWaker;
   Thread 1;
   Thread 0; Thread 0].

(** The state the race ends in. *)
Definition race_state : state :=
  Eval vm_compute in
    match run race_schedule demo_init with Some s => s | None => demo_init end.

(** Four packets are queued and the loop has just fetched its new-packet
    waker. *)
Definition drain_schedule : list label :=
  [Call_WritePacket (demo_pkt 1); Thread 0; Thread 0; Thread 0;
   Call_WritePacket (demo_pkt 2); Thread 1; Thread 1; Thread 1;
   Call_WritePacket (demo_pkt 3); Thread 2; Thread 2; Thread 2;
   Call_WritePacket (demo_pkt 4); Thread 3; Thread 3; Thread 3;
   Loop 0 NewPacketWaker].

Definition drain_state : state :=
  Eval vm_compute in
    match run drain_schedule demo_init with Some s => s | None => demo_init end.

Definition drain_worker : worker :=
  mkWorker (mkQD 4 [demo_pkt 1; demo_pkt 2; demo_pkt 3; demo_pkt 4] 4 false false)
           AtDrain [].

(** A packet has been queued and its caller is about to assert the waker. *)
Definition wake_schedule : list label :=
  [Call_WritePacket (demo_pkt 1); Thread 0; Thread 0].

Definition wake_state : state :=
  Eval vm_compute in
    match run wake_schedule demo_init with Some s => s | None => demo_init end.

Definition wake_worker : worker :=
  mkWorker (mkQD 4 [demo_pkt 1] 1 false false) AtFetch [].

(** [Close] has asserted the close waker and waits. *)
Definition waiting_schedule : list label :=
  [Call_WritePacket (demo_pkt 1); Thread 0; Thread 0; Thread 0;
   Call_Close; Thread 1; Thread 1; Thread 1].

Definition waiting_state : state :=
  Eval vm_compute in
    match run waiting_schedule demo_init with Some s => s | None => demo_init end.

Definition waiting_worker : worker :=
  mkWorker (mkQD 4 [demo_pkt 1] 1 true true) AtFetch [].

(** The scenario of [demo_schedule] to its end: the batch is released and
    the loop finds the queue empty and parks. *)
Definition settled_schedule : list label :=
  demo_schedule ++ [Loop 0 NewPacketWaker; Loop 0 NewPacketWaker].

Definition settled_state : state :=
  Eval vm_compute in
    match run settled_schedule demo_init with Some s => s | None => demo_init end.

Definition settled_worker : worker :=
  mkWorker (mkQD 4 [] 0 false false) AtFetch [].

(** * Properties *)

(** ** Go integers *)

Lemma wrap_int_id z : is_int z -> wrap_int z = z.
Proof.
  unfold is_int, wrap_int, min_int, max_int, int_bits.
  change (2 ^ (64 - 1)) with 9223372036854775808.
  change (2 ^ 64) with 18446744073709551616.
  intros Hz. rewrite Z.mod_small; lia.
Qed.

Lemma max_int_val : max_int = 9223372036854775807.
Proof. reflexivity. Qed.

Lemma min_int_val : min_int = -9223372036854775808.
Proof. reflexivity. Qed.

Lemma int_of_uint32_id h : 0 <= h < 2 ^ 32 -> int_of_uint32 h = h.
Proof.
  intros Hh. unfold int_of_uint32. rewrite Z.mod_small by lia.
  apply wrap_int_id. unfold is_int. rewrite max_int_val, min_int_val.
  change (2 ^ 32) with 4294967296 in Hh. lia.
Qed.

Lemma int_of_uint32_nonneg h : 0 <= int_of_uint32 h.
Proof.
  unfold int_of_uint32.
  assert (Hm : 0 <= h mod 2 ^ 32 < 2 ^ 32) by (apply Z.mod_pos_bound; lia).
  rewrite wrap_int_id; [lia|].
  unfold is_int. rewrite max_int_val, min_int_val.
  change (2 ^ 32) with 4294967296 in *. lia.
Qed.

Lemma shard_index_bounds pkt n : 1 <= n -> 0 <= shard_index pkt n < n.
Proof.
  intros Hn. unfold shard_index, int_rem.
  pose proof (int_of_uint32_nonneg (Hash pkt)) as Hh.
  rewrite Z.rem_mod_nonneg by lia. apply Z.mod_pos_bound. lia.
Qed.

(** ** Packet lists *)

Lemma Len_app (a b : PacketBufferList) : Len (a ++ b) = Len a + Len b.
Proof. unfold Len. rewrite length_app. lia. Qed.

Lemma Len_cons p (a : PacketBufferList) : Len (p :: a) = Len a + 1.
Proof. unfold Len. simpl. lia. Qed.

Lemma Len_nonneg (a : PacketBufferList) : 0 <= Len a.
Proof. unfold Len. lia. Qed.

Lemma Len_zero (a : PacketBufferList) : Len a = 0 -> a = [].
Proof. unfold Len. destruct a; simpl; [reflexivity | lia]. Qed.

Lemma occ_nil x : occ x [] = 0.
Proof. reflexivity. Qed.

Lemma occ_cons x p l :
  occ x (p :: l) = (if Nat.eqb x (pkt_id p) then 1 else 0) + occ x l.
Proof.
  unfold occ. simpl. destruct (Nat.eqb x (pkt_id p)); simpl length; lia.
Qed.

Lemma occ_app x a b : occ x (a ++ b) = occ x a + occ x b.
Proof.
  induction a as [|p a IH]; [rewrite occ_nil; simpl; lia|].
  simpl. rewrite !occ_cons, IH. lia.
Qed.

Lemma occ_nonneg x l : 0 <= occ x l.
Proof. unfold occ. lia. Qed.

Lemma IncRef_at pkt h x :
  IncRef pkt h x = h x + occ x [pkt].
Proof.
  unfold IncRef. rewrite occ_cons, occ_nil.
  destruct (Nat.eqb x (pkt_id pkt)); lia.
Qed.

Lemma DecRef_at pkt h x :
  DecRef pkt h x = h x - occ x [pkt].
Proof.
  unfold DecRef. rewrite occ_cons, occ_nil.
  destruct (Nat.eqb x (pkt_id pkt)); lia.
Qed.

Lemma List_DecRef_at l : forall h x, List_DecRef l h x = h x - occ x l.
Proof.
  induction l as [|p l IH]; intros h x.
  - rewrite occ_nil. simpl. lia.
  - unfold List_DecRef in *. simpl. rewrite IH, DecRef_at, (occ_cons x p l), occ_cons, occ_nil.
    lia.
Qed.

(** ** The loops of the dispatcher *)

Lemma shutdown_drain_spec i q : forall u h tr,
  shutdown_drain i q u h tr
  = ([], used_after q u, List_DecRef q h, tr ++ map (Discarded i) q).
Proof.
  induction q as [|p q IH]; intros u h tr; simpl.
  - by rewrite app_nil_r.
  - rewrite IH. by rewrite <- app_assoc.
Qed.

Lemma used_after_Len q : forall u,
  u = Len q -> Len q <= max_int -> used_after q u = 0.
Proof.
  induction q as [|p q IH]; intros u Hu Hmax; simpl; [done|].
  rewrite Len_cons in Hu, Hmax. pose proof (Len_nonneg q).
  apply IH; [|lia]. rewrite wrap_int_id; [lia|].
  unfold is_int. rewrite min_int_val. lia.
Qed.

(** What one critical section of the inner loop does to a queue whose
    [used] is its length: it moves a non-empty prefix of the queue to the
    back of the batch and stops for a write, or it finds the queue empty. *)
Lemma drain_spec q : forall u b q' u' b' flush,
  u = Len q -> Len q <= max_int ->
  drain q u b = (q', u', b', flush) ->
  exists taken,
    q = taken ++ q' /\ b' = b ++ taken /\ u' = Len q' /\
    (if flush then taken <> [] /\ (Len b < BatchSize -> Len b' <= BatchSize)
     else taken = [] /\ q' = []).
Proof.
  induction q as [|p q IH]; intros u b q' u' b' flush Hu Hmax Hd; simpl in Hd.
  - inversion Hd; subst. exists []. simpl. rewrite app_nil_r. repeat split; reflexivity.
  - rewrite Len_cons in Hu, Hmax. pose proof (Len_nonneg q) as Hq.
    assert (Hw : wrap_int (u - 1) = Len q).
    { rewrite wrap_int_id; [lia|]. unfold is_int. rewrite min_int_val. lia. }
    rewrite Hw in Hd.
    destruct ((Len (PushBack b p) <? BatchSize) && negb (Len q =? 0)) eqn:Hc.
    + apply andb_true_iff in Hc as [Hlt Hnz].
      apply Z.ltb_lt in Hlt. apply negb_true_iff, Z.eqb_neq in Hnz.
      destruct (IH _ _ _ _ _ _ eq_refl ltac:(lia) Hd) as (taken & Hq' & Hb' & Hu' & Hf).
      exists (p :: taken). unfold PushBack in *.
      repeat split.
      * simpl. by rewrite <- Hq'.
      * rewrite Hb', <- app_assoc. done.
      * done.
      * destruct flush.
        -- destruct Hf as [_ Hf]. split; [done|]. intros _. apply Hf. done.
        -- destruct Hf as [-> ->]. simpl in Hq'. subst q. done.
    + inversion Hd; subst. exists [p]. unfold PushBack in *.
      repeat split; [done|]. intros Hb.
      rewrite Len_app. change (Len [p]) with 1. unfold BatchSize in *. lia.
Qed.

(** ** What a transition does to one shard *)

Ltac unfold_state :=
  unfold set_worker, log, with_closed, with_dispatchers, with_wg, with_refs,
    with_threads, with_trace, with_aborted in *; simpl in *.

Lemma Fetch_registered q w q' :
  Fetch loop_sleeper q w = Some q' ->
  (w = NewPacketWaker \/ w = CloseWaker) /\ q' = clear_waker w q.
Proof.
  unfold Fetch. destruct w; simpl; intros H.
  - destruct (newPacketWaker q); inversion H. auto.
  - destruct (closeWaker q); inversion H. auto.
  - discriminate.
Qed.

Lemma WritePacket_locked_cases pkt s r s' :
  WritePacket_locked pkt s = Some (r, s') ->
  (r = None /\ s' = s) \/
  (exists j, r = Some j /\ touches j s s' /\
             closed s' = closed s /\ wg s' = wg s /\
             threads s' = threads s /\ aborted s' = aborted s).
Proof.
  unfold WritePacket_locked, select_shard.
  destruct (Z.of_nat (length (dispatchers s)) =? 0); [discriminate|].
  destruct (shard_index pkt (Z.of_nat (length (dispatchers s))) <? 0); [discriminate|].
  set (j := Z.to_nat _).
  destruct (dispatchers s !! j) as [x|] eqn:Hx; [|discriminate].
  destruct (used (qd x) <? limit (qd x)) eqn:Hs; intros H; inversion H; subst; clear H.
  - right. exists j. split; [done|]. split; [|done].
    exists x. eexists. eexists. split; [exact Hx|]. split.
    + apply (LS_enqueue j x (refs s) pkt). by apply Z.ltb_lt.
    + done.
  - by left.
Qed.

Lemma Assert_newPacket_cases i s :
  Assert_newPacket i s = s \/ touches i s (Assert_newPacket i s).
Proof.
  unfold Assert_newPacket. destruct (dispatchers s !! i) as [x|] eqn:Hx; [|by left].
  right. exists x. eexists. exists []. split; [done|]. split; [apply LS_assert|].
  unfold_state. by rewrite app_nil_r.
Qed.

Lemma Assert_close_cases i s :
  Assert_close i s = s \/ touches i s (Assert_close i s).
Proof.
  unfold Assert_close. destruct (dispatchers s !! i) as [x|] eqn:Hx; [|by left].
  right. exists x. eexists. exists []. split; [done|]. split; [apply LS_assert|].
  unfold_state. by rewrite app_nil_r.
Qed.

Lemma dispatchLoop_step_cases i w s s' :
  dispatchLoop_step i w s = Some s' -> touches i s s'.
Proof.
  unfold dispatchLoop_step.
  destruct (dispatchers s !! i) as [x|] eqn:Hx; [|discriminate].
  destruct (pc x) eqn:Hpc; try discriminate.
  - destruct (Fetch loop_sleeper (qd x) w) as [q'|] eqn:Hf; [|discriminate].
    apply Fetch_registered in Hf as [Hw ->]. intros H; inversion H; subst; clear H.
    exists x. eexists. exists []. split; [done|].
    destruct Hw as [-> | ->].
    + split; [apply (LS_fetch i x (refs s) NewPacketWaker); auto|].
      unfold on_wake. unfold_state. by rewrite app_nil_r.
    + split; [apply (LS_fetch i x (refs s) CloseWaker); auto|].
      unfold on_wake. unfold_state. by rewrite app_nil_r.
  - destruct (drain _ _ _) as [[[q' u'] b'] flush] eqn:Hd.
    intros H; inversion H; subst; clear H.
    exists x. eexists. exists []. split; [done|]. split; [by eapply LS_drain|].
    unfold_state. by rewrite app_nil_r.
  - intros H; inversion H; subst; clear H.
    exists x. eexists. eexists. split; [done|]. split; [by apply LS_write|]. done.
  - intros H; inversion H; subst; clear H.
    exists x. eexists. eexists. split; [done|]. split; [by apply LS_release|]. done.
  - rewrite shutdown_drain_spec.
    intros H; inversion H; subst; clear H.
    exists x. eexists. eexists. split; [done|]. split; [by apply LS_shutdown|]. done.
Qed.

Lemma select_shard_total pkt s :
  dispatchers s <> [] -> exists i x, select_shard pkt s = Some (i, x).
Proof.
  intros Hne. unfold select_shard.
  assert (Hlen : 1 <= Z.of_nat (length (dispatchers s))).
  { destruct (dispatchers s); [done|]. simpl. lia. }
  pose proof (shard_index_bounds pkt _ Hlen) as Hb.
  destruct (Z.eqb_spec (Z.of_nat (length (dispatchers s))) 0); [lia|].
  destruct (Z.ltb_spec (shard_index pkt (Z.of_nat (length (dispatchers s)))) 0); [lia|].
  destruct (dispatchers s !! _) as [x|] eqn:Hx; [eauto|].
  apply lookup_ge_None in Hx. lia.
Qed.

Lemma WritePacket_locked_total pkt s :
  dispatchers s <> [] -> exists r s', WritePacket_locked pkt s = Some (r, s').
Proof.
  intros Hne. destruct (select_shard_total pkt s Hne) as (i & x & Hs).
  unfold WritePacket_locked. rewrite Hs.
  destruct (used (qd x) <? limit (qd x)); eauto.
Qed.

Lemma thread_step_cases t s t' s' :
  thread_step t s = Some (t', s') ->
  threads s' = threads s /\ (untouched s s' \/ exists j, touches j s s').
Proof.
  intros H. destruct t as [pkt p | p]; destruct p; simpl in H; try discriminate.
  - destruct (closed s =? qDiscClosed); inversion H; subst; split; first [done | by left].
  - destruct (WritePacket_locked pkt s) as [[r s1]|] eqn:Hl.
    + apply WritePacket_locked_cases in Hl as [[-> ->] | (j & -> & Ht & _ & _ & Hth & Hab)].
      * inversion H; subst. split; first [done | by left].
      * inversion H; subst. split; [done|]. right. by exists j.
    + inversion H; subst. split; first [done | by left].
  - inversion H; subst. destruct (Assert_newPacket_cases i s) as [-> | Ht].
    + split; first [done | by left].
    + split.
      * unfold Assert_newPacket. by destruct (dispatchers s !! i).
      * right. by exists i.
  - inversion H; subst. split; first [done | by left].
  - destruct (Nat.ltb i (length (dispatchers s))); inversion H; subst.
    + destruct (Assert_close_cases i s) as [-> | Ht].
      * split; first [done | by left].
      * split.
        -- unfold Assert_close. by destruct (dispatchers s !! i).
        -- right. by exists i.
    + split; first [done | by left].
  - destruct (wg s =? 0); inversion H; subst. split; first [done | by left].
Qed.

Lemma thread_step_aborted t s t' s' :
  thread_step t s = Some (t', s') ->
  dispatchers s <> [] ->
  aborted s' = aborted s.
Proof.
  intros H Hne. destruct t as [pkt p | p]; destruct p; simpl in H; try discriminate.
  - destruct (closed s =? qDiscClosed); by inversion H.
  - destruct (WritePacket_locked_total pkt s Hne) as (r & s1 & Hl). rewrite Hl in H.
    apply WritePacket_locked_cases in Hl as [[-> ->] | (j & -> & Ht & _ & _ & Hth & Hab)];
      by inversion H; subst.
  - inversion H; subst. unfold Assert_newPacket. by destruct (dispatchers s !! i).
  - by inversion H.
  - destruct (Nat.ltb i (length (dispatchers s))); inversion H; subst; [|done].
    unfold Assert_close. by destruct (dispatchers s !! i).
  - destruct (wg s =? 0); by inversion H.
Qed.

(** The frame lemma of the system: a transition changes no shard or one. *)
Lemma exec_cases a s s' :
  exec a s = Some s' ->
  aborted s = false /\ (untouched s s' \/ exists j, touches j s s').
Proof.
  unfold exec. destruct (aborted s) eqn:Hab; [discriminate|].
  intros H. split; [done|].
  destruct a as [pkt | | k | i w].
  - inversion H; subst. by left.
  - inversion H; subst. by left.
  - destruct (threads s !! k) as [t|]; [|discriminate].
    destruct (thread_step t s) as [[t' s1]|] eqn:Ht; [|discriminate].
    inversion H; subst; clear H.
    apply thread_step_cases in Ht as (Hth & Hc).
    destruct Hc as [Hu | [j Hj]]; [left | right; exists j]; exact Hu || exact Hj.
  - right. exists i. by eapply dispatchLoop_step_cases.
Qed.

(** With at least one shard nothing panics. *)
Lemma exec_aborted a s s' :
  exec a s = Some s' -> dispatchers s <> [] -> aborted s' = false.
Proof.
  unfold exec. destruct (aborted s) eqn:Hab; [discriminate|].
  intros H Hne.
  destruct a as [pkt | | k | i w].
  - by inversion H; subst.
  - by inversion H; subst.
  - destruct (threads s !! k) as [t|]; [|discriminate].
    destruct (thread_step t s) as [[t' s1]|] eqn:Ht; [|discriminate].
    inversion H; subst; clear H.
    apply thread_step_aborted in Ht; [|done]. unfold_state. congruence.
  - revert H. unfold dispatchLoop_step.
    destruct (dispatchers s !! i) as [x|]; [|discriminate].
    destruct (pc x); try discriminate.
    + destruct (Fetch loop_sleeper (qd x) w) as [q'|] eqn:Hf; [|discriminate].
      apply Fetch_registered in Hf as [[-> | ->] _]; intros H; inversion H; done.
    + destruct (drain _ _ _) as [[[q' u'] b'] flush]. intros H; inversion H; done.
    + intros H; inversion H; done.
    + intros H; inversion H; done.
    + rewrite shutdown_drain_spec. intros H; inversion H; done.
Qed.

Lemma exec_length a s s' :
  exec a s = Some s' -> length (dispatchers s') = length (dispatchers s).
Proof.
  intros H. apply exec_cases in H as [_ [(Hd & _) | (j & x & x' & evs & _ & _ & Hd & _)]];
    rewrite Hd; [done | apply length_insert].
Qed.

(** ** Reading a trace that grows *)

Lemma enqueued_of_app i a b : enqueued_of i (a ++ b) = enqueued_of i a ++ enqueued_of i b.
Proof. apply flat_map_app. Qed.

Lemma batches_of_app i a b : batches_of i (a ++ b) = batches_of i a ++ batches_of i b.
Proof. apply flat_map_app. Qed.

Lemma written_of_app i a b : written_of i (a ++ b) = written_of i a ++ written_of i b.
Proof. unfold written_of. by rewrite batches_of_app, concat_app. Qed.

Lemma released_of_app i a b : released_of i (a ++ b) = released_of i a ++ released_of i b.
Proof. apply flat_map_app. Qed.

Lemma discarded_of_app i a b : discarded_of i (a ++ b) = discarded_of i a ++ discarded_of i b.
Proof. apply flat_map_app. Qed.

Lemma all_batches_app a b : all_batches (a ++ b) = all_batches a ++ all_batches b.
Proof. apply flat_map_app. Qed.

Lemma discarded_of_map i q : discarded_of i (map (Discarded i) q) = q.
Proof.
  induction q as [|p q IH]; [done|].
  change (map (Discarded i) (p :: q)) with ([Discarded i p] ++ map (Discarded i) q).
  rewrite discarded_of_app, IH. simpl. by rewrite Nat.eqb_refl.
Qed.

Lemma enqueued_of_map i j q : enqueued_of i (map (Discarded j) q) = [].
Proof. induction q as [|p q IH]; [done|]. simpl. exact IH. Qed.

Lemma batches_of_map i j q : batches_of i (map (Discarded j) q) = [].
Proof. induction q as [|p q IH]; [done|]. simpl. exact IH. Qed.

Lemma released_of_map i j q : released_of i (map (Discarded j) q) = [].
Proof. induction q as [|p q IH]; [done|]. simpl. exact IH. Qed.

Lemma all_batches_map j q : all_batches (map (Discarded j) q) = [].
Proof. induction q as [|p q IH]; [done|]. simpl. exact IH. Qed.

Lemma discarded_of_map_ne i j q : i <> j -> discarded_of i (map (Discarded j) q) = [].
Proof.
  intros Hne. induction q as [|p q IH]; [done|].
  change (map (Discarded j) (p :: q)) with ([Discarded j p] ++ map (Discarded j) q).
  rewrite discarded_of_app, IH. simpl. apply Nat.eqb_neq in Hne. by rewrite Hne.
Qed.

(** The events of a step of shard [j] say nothing about another shard. *)
Lemma local_step_other i j x h x' evs h' :
  local_step j x h x' evs h' -> i <> j ->
  enqueued_of i evs = [] /\ batches_of i evs = [] /\
  released_of i evs = [] /\ discarded_of i evs = [].
Proof.
  intros Hs Hne. pose proof Hne as Hb. apply Nat.eqb_neq in Hb.
  destruct Hs; simpl; rewrite ?Hb; repeat split; try reflexivity.
  - apply enqueued_of_map.
  - apply batches_of_map.
  - apply released_of_map.
  - by apply discarded_of_map_ne.
Qed.

(** ** The invariant of a shard *)

Section Invariant.

(** The capacity every shard was created with. *)
Variable queueLen : Z.
Hypothesis queueLen_int : is_int queueLen.

Lemma local_step_inv i x h x' evs h' tr :
  local_step i x h x' evs h' ->
  shard_inv queueLen i x tr ->
  shard_inv queueLen i x' (tr ++ evs).
Proof.
  intros Hs [Hlim Hused Hcap Hb Hpc Henq Hwr Hdisc].
  pose proof queueLen_int as [Hlo Hhi]. rewrite max_int_val in Hhi.
  assert (Hmax : Len (queue (qd x)) <= max_int) by (rewrite max_int_val; lia).
  destruct Hs as [pkt Hlt | nw cw | w Hat Hw | q' u' b' flush Hat Hd | Hat | Hat | Hat].
  - (* a packet is queued *)
    assert (Hw : wrap_int (used (qd x) + 1) = Len (queue (qd x)) + 1).
    { rewrite Hused. apply wrap_int_id. pose proof (Len_nonneg (queue (qd x))).
      unfold is_int. rewrite min_int_val, max_int_val. lia. }
    split; simpl; rewrite
      ?enqueued_of_app, ?written_of_app, ?released_of_app, ?discarded_of_app;
      simpl; rewrite ?Nat.eqb_refl, ?app_nil_r; unfold PushBack; try done.
    + rewrite Hw, Len_app. done.
    + rewrite Len_app. change (Len [pkt]) with 1. lia.
    + rewrite Henq. by rewrite <- !app_assoc.
  - (* a waker flag changes *)
    rewrite app_nil_r. by split.
  - (* Fetch returns *)
    rewrite app_nil_r. unfold batch_ok in Hb. rewrite Hat in Hb, Hwr.
    destruct Hw as [-> | ->]; split; simpl; try done; try (by unfold batch_ok);
      destruct Hdisc as [Hdisc | Hdisc]; auto; congruence.
  - (* one critical section of the inner loop *)
    rewrite app_nil_r. unfold batch_ok in Hb. rewrite Hat in Hb, Hwr.
    destruct (drain_spec _ _ _ _ _ _ _ Hused Hmax Hd) as (taken & Hq & Hb' & Hu' & Hf).
    rewrite Hb in Hb'. simpl in Hb'. subst b'.
    assert (Hdisc' : discarded_of i tr = []).
    { destruct Hdisc as [Hdisc | Hdisc]; [done | congruence]. }
    split; simpl; try done.
    + rewrite Hq, Len_app in Hcap. pose proof (Len_nonneg taken). lia.
    + unfold batch_ok. simpl. destruct flush.
      * destruct Hf as [Hne Hle]. rewrite Hb in Hle. split; [|by apply Hle].
        destruct taken; [done|]. rewrite Len_cons. pose proof (Len_nonneg taken). lia.
      * by destruct Hf.
    + by destruct flush.
    + rewrite Henq, Hb, Hq. done.
    + rewrite Hwr. by destruct flush.
    + by left.
  - (* WritePackets *)
    unfold batch_ok in Hb. rewrite Hat in Hb, Hwr.
    split; simpl; rewrite
      ?enqueued_of_app, ?written_of_app, ?released_of_app, ?discarded_of_app;
      unfold written_of; simpl; rewrite ?Nat.eqb_refl, ?app_nil_r; simpl;
      rewrite ?app_nil_r; try done.
    + fold (written_of i tr). rewrite Hwr, app_nil_r. done.
    + destruct Hdisc as [Hdisc | Hdisc]; [by left | congruence].
  - (* the batch is released *)
    unfold batch_ok in Hb. rewrite Hat in Hb, Hwr.
    assert (Hdisc' : discarded_of i tr = []).
    { destruct Hdisc as [Hdisc | Hdisc]; [done | congruence]. }
    split; simpl; rewrite
      ?enqueued_of_app, ?written_of_app, ?released_of_app, ?discarded_of_app;
      unfold written_of; simpl; rewrite ?Nat.eqb_refl, ?app_nil_r; simpl;
      rewrite ?app_nil_r; try done.
    + rewrite Henq, Hdisc'. simpl. by rewrite <- app_assoc.
    + by left.
  - (* shutdown *)
    unfold batch_ok in Hb. rewrite Hat in Hb, Hwr.
    assert (Hdisc' : discarded_of i tr = []).
    { destruct Hdisc as [Hdisc | Hdisc]; [done | congruence]. }
    split; simpl; rewrite
      ?enqueued_of_app, ?written_of_app, ?released_of_app, ?discarded_of_app;
      unfold written_of;
      rewrite ?enqueued_of_map, ?batches_of_map, ?released_of_map, ?discarded_of_map;
      simpl; rewrite ?app_nil_r; try done.
    + by apply used_after_Len.
    + change (Len []) with 0. lia.
    + rewrite Henq, Hdisc', Hb. simpl. by rewrite app_nil_r.
    + fold (written_of i tr). rewrite Hwr, app_nil_r. done.
    + by right.
Qed.

End Invariant.

(** ** The invariant of the system *)

Section Reachable.

Variable queueLen : Z.
Hypothesis queueLen_int : is_int queueLen.

Lemma shard_inv_frame i x tr evs :
  enqueued_of i evs = [] -> batches_of i evs = [] ->
  released_of i evs = [] -> discarded_of i evs = [] ->
  shard_inv queueLen i x tr -> shard_inv queueLen i x (tr ++ evs).
Proof.
  intros He Hb Hr Hd [].
  split; rewrite ?enqueued_of_app, ?written_of_app, ?released_of_app, ?discarded_of_app;
    unfold written_of; rewrite ?He, ?Hb, ?Hr, ?Hd; simpl; rewrite ?app_nil_r; done.
Qed.

Lemma local_step_batches i x h x' evs h' tr :
  local_step i x h x' evs h' ->
  shard_inv queueLen i x tr ->
  Forall (fun b => 1 <= Len b <= BatchSize) (all_batches evs).
Proof.
  intros Hs Hinv. destruct Hs; simpl; try by constructor.
  - constructor; [|constructor].
    pose proof (si_batch _ _ _ _ Hinv) as Hb. unfold batch_ok in Hb.
    by rewrite H in Hb.
  - rewrite all_batches_map. constructor.
Qed.

Lemma exec_inv a s s' : exec a s = Some s' -> state_inv queueLen s -> state_inv queueLen s'.
Proof.
  intros He [Hsh Hba Hab].
  pose proof (exec_length _ _ _ He) as Hlen.
  assert (Hab' : dispatchers s' <> [] -> aborted s' = false).
  { intros Hne. eapply exec_aborted; [exact He|].
    intros Heq. rewrite Heq in Hlen. by destruct (dispatchers s'). }
  apply exec_cases in He
    as [_ [(Hd & Ht & _) | (j & x & x' & evs & Hx & Hs & Hd & Ht)]].
  - split; [rewrite Hd, Ht; exact Hsh | rewrite Ht; exact Hba | exact Hab'].
  - split; [| |exact Hab'].
    + intros i y Hy. rewrite Hd in Hy. rewrite Ht.
      destruct (decide (i = j)) as [-> | Hne].
      * rewrite list_lookup_insert_eq in Hy by (by eapply lookup_lt_Some).
        inversion Hy; subst. eapply local_step_inv; eauto.
      * rewrite list_lookup_insert_ne in Hy by done.
        destruct (local_step_other i j _ _ _ _ _ Hs Hne) as (H1 & H2 & H3 & H4).
        apply shard_inv_frame; auto.
    + rewrite Ht, all_batches_app. apply Forall_app. split; [done|].
      eapply local_step_batches; eauto.
Qed.

Lemma run_inv ls : forall s s', run ls s = Some s' -> state_inv queueLen s -> state_inv queueLen s'.
Proof.
  induction ls as [|a ls IH]; intros s s' Hr Hinv; simpl in Hr.
  - by inversion Hr; subst.
  - destruct (exec a s) as [s1|] eqn:He; [|discriminate].
    eapply IH; [exact Hr|]. eapply exec_inv; eauto.
Qed.

Lemma New_inv n h s0 : New n queueLen h = Some s0 -> state_inv queueLen s0.
Proof.
  unfold New. destruct (n <? 0); [discriminate|]. intros H; inversion H; subst; clear H.
  split; simpl; [|constructor|done].
  intros i x Hx. apply lookup_replicate in Hx as [-> _].
  split; simpl; try done.
  - change (Len []) with 0. lia.
  - by left.
Qed.

(** Every state the system reaches from [New] satisfies the invariant. *)
Lemma reachable_inv n h s0 ls s :
  New n queueLen h = Some s0 -> run ls s0 = Some s -> state_inv queueLen s.
Proof. intros HN Hr. eapply run_inv; [exact Hr|]. by eapply New_inv. Qed.

End Reachable.

Lemma Written_in_all_batches i b tr : In (Written i b) tr -> In b (all_batches tr).
Proof.
  intros H. unfold all_batches. apply in_flat_map. exists (Written i b). simpl. auto.
Qed.

(** ** A run of the scenario of the specification

    One shard of capacity 4; five packets without a hash are submitted one
    after the other, then the loop wakes up and drains the queue. *)

Lemma is_int_4 : is_int 4.
Proof. unfold is_int. rewrite min_int_val, max_int_val. lia. Qed.

Example demo_trace :
  option_map trace (run demo_schedule demo_init)
  = Some [Enqueued 0 (demo_pkt 1); Enqueued 0 (demo_pkt 2);
          Enqueued 0 (demo_pkt 3); Enqueued 0 (demo_pkt 4);
          Written 0 [demo_pkt 1; demo_pkt 2; demo_pkt 3; demo_pkt 4]].
Proof. reflexivity. Qed.

Example demo_threads :
  option_map threads (run demo_schedule demo_init)
  = Some [In_WritePacket (demo_pkt 1) (WP_Done None);
          In_WritePacket (demo_pkt 2) (WP_Done None);
          In_WritePacket (demo_pkt 3) (WP_Done None);
          In_WritePacket (demo_pkt 4) (WP_Done None);
          In_WritePacket (demo_pkt 5) (WP_Done (Some ErrNoBufferSpace))].
Proof. reflexivity. Qed.

Lemma demo_run : run demo_schedule demo_init = Some demo_final.
Proof. vm_compute. reflexivity. Qed.

Lemma demo_New : New 1 4 demo_heap = Some demo_init.
Proof. reflexivity. Qed.

(** ** The size of a batch *)

(** C6: no call of [WritePackets] gets more than [BatchSize] = 32 packets. *)
Theorem batch_bound n queueLen h s0 ls s i b :
  is_int queueLen ->
  New n queueLen h = Some s0 ->
  run ls s0 = Some s ->
  In (Written i b) (trace s) ->
  Len b <= BatchSize /\ BatchSize = 32.
Proof.
  intros Hint HN Hr Hin.
  pose proof (reachable_inv queueLen Hint n h s0 ls s HN Hr) as [_ Hba _].
  rewrite Forall_forall in Hba.
  apply Written_in_all_batches, list_elem_of_In, Hba in Hin. split; [lia | reflexivity].
Qed.

Lemma batch_bound_witness :
  Len [demo_pkt 1; demo_pkt 2; demo_pkt 3; demo_pkt 4] <= BatchSize /\ BatchSize = 32.
Proof.
  apply (batch_bound 1 4 demo_heap demo_init demo_schedule demo_final 0%nat _ is_int_4).
  - reflexivity.
  - vm_compute. reflexivity.
  - simpl. do 4 right. left. reflexivity.
Defined.

(** C10: no call of [WritePackets] gets an empty batch. *)
Theorem batch_nonempty n queueLen h s0 ls s i b :
  is_int queueLen ->
  New n queueLen h = Some s0 ->
  run ls s0 = Some s ->
  In (Written i b) (trace s) ->
  1 <= Len b /\ b <> [].
Proof.
  intros Hint HN Hr Hin.
  pose proof (reachable_inv queueLen Hint n h s0 ls s HN Hr) as [_ Hba _].
  rewrite Forall_forall in Hba.
  apply Written_in_all_batches, list_elem_of_In, Hba in Hin. split; [lia|].
  intros ->. change (Len []) with 0 in Hin. lia.
Qed.

Lemma batch_nonempty_witness :
  1 <= Len [demo_pkt 1; demo_pkt 2; demo_pkt 3; demo_pkt 4]
  /\ [demo_pkt 1; demo_pkt 2; demo_pkt 3; demo_pkt 4] <> [].
Proof.
  apply (batch_nonempty 1 4 demo_heap demo_init demo_schedule demo_final 0%nat _ is_int_4).
  - reflexivity.
  - vm_compute. reflexivity.
  - simpl. do 4 right. left. reflexivity.
Defined.

(** ** The capacity of a shard *)

Lemma is_int_m1 : is_int (-1).
Proof. unfold is_int. rewrite min_int_val, max_int_val. lia. Qed.

(** [New(lower, 1, -1)]: the shard starts with [used = 0] and [limit = -1]. *)
Lemma used_within_limit_fails : ~ used_within_limit.
Proof.
  intros H.
  destruct (H 1 (-1) demo_heap
              (mkState 0 [New_worker (-1)] 1 demo_heap [] [] false)
              [] _ 0%nat (New_worker (-1)) is_int_m1 eq_refl eq_refl eq_refl)
    as [_ [_ Hle]].
  simpl in Hle. lia.
Qed.

(** C7, amended: in every state the system reaches, [used] of a shard is
    the number of packets in its queue and is not negative; it is at most
    [limit] when the capacity the discipline was created with is not
    negative. *)
Theorem used_is_queue_length n queueLen h s0 ls s i x :
  is_int queueLen ->
  New n queueLen h = Some s0 ->
  run ls s0 = Some s ->
  dispatchers s !! i = Some x ->
  used (qd x) = Len (queue (qd x)) /\
  0 <= used (qd x) /\
  limit (qd x) = queueLen /\
  (0 <= queueLen -> used (qd x) <= limit (qd x)).
Proof.
  intros Hint HN Hr Hx.
  pose proof (reachable_inv queueLen Hint n h s0 ls s HN Hr) as [Hsh _ _].
  destruct (Hsh i x Hx) as [Hlim Hused Hcap _ _ _ _ _].
  pose proof (Len_nonneg (queue (qd x))).
  repeat split; first [lia | done].
Qed.

Lemma used_is_queue_length_witness :
  exists x,
    dispatchers demo_final !! 0%nat = Some x /\
    used (qd x) = Len (queue (qd x)) /\
    0 <= used (qd x) /\
    limit (qd x) = 4 /\
    (0 <= 4 -> used (qd x) <= limit (qd x)).
Proof.
  eexists. split; [reflexivity|].
  apply (used_is_queue_length 1 4 demo_heap demo_init demo_schedule demo_final 0%nat _ is_int_4).
  - reflexivity.
  - vm_compute. reflexivity.
  - reflexivity.
Defined.

(** ** The unknown waker *)

(** C9: a waker other than the two of the dispatcher sends the loop to its
    [panic], which kills the program: nothing moves any more.  [Fetch] on the
    sleeper of the loop returns one of the two wakers only, and in no state
    the system reaches has a loop panicked. *)
Theorem unknown_waker_panics :
  (forall i x q' w s,
      w <> NewPacketWaker -> w <> CloseWaker ->
      dispatch_switch w = Panicked /\
      aborted (on_wake i x q' w s) = true /\
      (forall a, exec a (on_wake i x q' w s) = None)) /\
  (forall q w q',
      Fetch loop_sleeper q w = Some q' -> w = NewPacketWaker \/ w = CloseWaker) /\
  (forall n queueLen h s0 ls s i x,
      is_int queueLen ->
      New n queueLen h = Some s0 ->
      run ls s0 = Some s ->
      dispatchers s !! i = Some x ->
      pc x <> Panicked /\ aborted s = false).
Proof.
  split; [|split].
  - intros i x q' w s Hn Hc. destruct w as [| |k]; [done|done|].
    split; [reflexivity|]. split; [reflexivity|]. intros a. reflexivity.
  - intros q w q' Hf. by apply Fetch_registered in Hf as [Hw _].
  - intros n queueLen h s0 ls s i x Hint HN Hr Hx.
    pose proof (reachable_inv queueLen Hint n h s0 ls s HN Hr) as [Hsh _ Hab].
    split; [exact (si_pc _ _ _ _ (Hsh i x Hx))|].
    apply Hab. intros Hnil. by rewrite Hnil in Hx.
Qed.

Lemma unknown_waker_panics_witness :
  (dispatch_switch (ForeignWaker 7) = Panicked /\
   aborted (on_wake 0 (New_worker 4) (qd (New_worker 4)) (ForeignWaker 7) demo_init) = true /\
   (forall a,
       exec a (on_wake 0 (New_worker 4) (qd (New_worker 4)) (ForeignWaker 7) demo_init)
       = None)) /\
  (exists x, dispatchers demo_final !! 0%nat = Some x /\
             pc x <> Panicked /\ aborted demo_final = false).
Proof.
  destruct unknown_waker_panics as (Hpanic & _ & Hreach).
  split.
  - apply Hpanic; discriminate.
  - eexists. split; [reflexivity|].
    apply (Hreach 1 4 demo_heap demo_init demo_schedule demo_final 0%nat _ is_int_4).
    + reflexivity.
    + vm_compute. reflexivity.
    + reflexivity.
Defined.

(** ** A full shard *)

(** C3: when the shard [WritePacket] selects has [used = limit], the
    critical section changes nothing at all (queue, [used], reference
    counts) and the call returns [ErrNoBufferSpace]. *)
Theorem full_shard_rejects pkt s i x :
  select_shard pkt s = Some (i, x) ->
  used (qd x) = limit (qd x) ->
  WritePacket_locked pkt s = Some (None, s) /\
  thread_step (In_WritePacket pkt WP_Locked) s
  = Some (In_WritePacket pkt (WP_Done (Some ErrNoBufferSpace)), s) /\
  (closed s <> qDiscClosed -> WritePacket pkt s = Some (Some ErrNoBufferSpace, s)).
Proof.
  intros Hsel Hfull.
  assert (Hl : WritePacket_locked pkt s = Some (None, s)).
  { unfold WritePacket_locked. rewrite Hsel, Hfull, Z.ltb_irrefl. done. }
  split; [exact Hl|]. split.
  - simpl. by rewrite Hl.
  - intros Hc. unfold WritePacket. apply Z.eqb_neq in Hc. by rewrite Hc, Hl.
Qed.

Lemma full_shard_rejects_witness :
  WritePacket_locked (demo_pkt 2) full_state = Some (None, full_state) /\
  thread_step (In_WritePacket (demo_pkt 2) WP_Locked) full_state
  = Some (In_WritePacket (demo_pkt 2) (WP_Done (Some ErrNoBufferSpace)), full_state) /\
  (closed full_state <> qDiscClosed ->
   WritePacket (demo_pkt 2) full_state = Some (Some ErrNoBufferSpace, full_state)).
Proof.
  apply (full_shard_rejects (demo_pkt 2) full_state 0%nat
           (mkWorker (mkQD 1 [demo_pkt 1] 1 false false) AtFetch [])).
  - reflexivity.
  - reflexivity.
Defined.

(** ** After Close *)

Lemma thread_step_closed t s t' s' :
  thread_step t s = Some (t', s') ->
  closed s = qDiscClosed -> closed s' = qDiscClosed.
Proof.
  intros H Hc. destruct t as [pkt p | p]; destruct p; simpl in H; try discriminate.
  - destruct (closed s =? qDiscClosed); by inversion H; subst.
  - destruct (WritePacket_locked pkt s) as [[r s1]|] eqn:Hl.
    + apply WritePacket_locked_cases in Hl as [[-> ->] | (j & -> & _ & Hcl & _)];
        inversion H; subst; congruence.
    + by inversion H; subst.
  - inversion H; subst. unfold Assert_newPacket. by destruct (dispatchers s !! i).
  - by inversion H; subst.
  - destruct (Nat.ltb i (length (dispatchers s))); inversion H; subst; [|done].
    unfold Assert_close. by destruct (dispatchers s !! i).
  - destruct (wg s =? 0); by inversion H; subst.
Qed.

Lemma dispatchLoop_step_closed i w s s' :
  dispatchLoop_step i w s = Some s' -> closed s' = closed s.
Proof.
  unfold dispatchLoop_step.
  destruct (dispatchers s !! i) as [x|]; [|discriminate].
  destruct (pc x); try discriminate.
  - destruct (Fetch loop_sleeper (qd x) w) as [q'|] eqn:Hf; [|discriminate].
    apply Fetch_registered in Hf as [[-> | ->] _]; intros H; inversion H; done.
  - destruct (drain _ _ _) as [[[q' u'] b'] flush]. intros H; inversion H; done.
  - intros H; inversion H; done.
  - intros H; inversion H; done.
  - rewrite shutdown_drain_spec. intros H; inversion H; done.
Qed.

(** [closed] never goes back. *)
Lemma exec_closed a s s' :
  exec a s = Some s' -> closed s = qDiscClosed -> closed s' = qDiscClosed.
Proof.
  unfold exec. destruct (aborted s); [discriminate|].
  intros H Hc. destruct a as [pkt | | k | i w].
  - by inversion H; subst.
  - by inversion H; subst.
  - destruct (threads s !! k) as [t|]; [|discriminate].
    destruct (thread_step t s) as [[t' s1]|] eqn:Ht; [|discriminate].
    inversion H; subst; clear H. simpl. by eapply thread_step_closed.
  - apply dispatchLoop_step_closed in H. congruence.
Qed.

Lemma run_closed ls : forall s s',
  run ls s = Some s' -> closed s = qDiscClosed -> closed s' = qDiscClosed.
Proof.
  induction ls as [|a ls IH]; intros s s' Hr Hc; simpl in Hr.
  - by inversion Hr; subst.
  - destruct (exec a s) as [s1|] eqn:He; [|discriminate].
    eapply IH; [exact Hr|]. by eapply exec_closed.
Qed.

(** C4: once [Close] has stored [qDiscClosed], whatever happens afterwards,
    a call of [WritePacket] returns [ErrClosedForSend] at its first step and
    leaves the state as it is; the outcome is the same whatever the shards
    hold. *)
Theorem closed_rejects s0 t s ls s' pkt :
  thread_step (In_Close CL_Store) s0 = Some (t, s) ->
  run ls s = Some s' ->
  closed s' = qDiscClosed /\
  WritePacket pkt s' = Some (Some ErrClosedForSend, s') /\
  thread_step (In_WritePacket pkt WP_Load) s'
  = Some (In_WritePacket pkt (WP_Done (Some ErrClosedForSend)), s') /\
  (forall d,
      WritePacket pkt (with_dispatchers d s')
      = Some (Some ErrClosedForSend, with_dispatchers d s')).
Proof.
  intros Hst Hr. simpl in Hst. inversion Hst; subst; clear Hst.
  assert (Hc : closed s' = qDiscClosed) by (eapply run_closed; [exact Hr | reflexivity]).
  split; [exact Hc|]. split; [|split].
  - unfold WritePacket. by rewrite Hc.
  - simpl. by rewrite Hc.
  - intros d. unfold WritePacket. simpl. by rewrite Hc.
Qed.

Lemma closed_rejects_witness :
  closed (with_closed qDiscClosed full_state) = qDiscClosed /\
  WritePacket (demo_pkt 2) (with_closed qDiscClosed full_state)
  = Some (Some ErrClosedForSend, with_closed qDiscClosed full_state) /\
  thread_step (In_WritePacket (demo_pkt 2) WP_Load) (with_closed qDiscClosed full_state)
  = Some (In_WritePacket (demo_pkt 2) (WP_Done (Some ErrClosedForSend)),
          with_closed qDiscClosed full_state) /\
  (forall d,
      WritePacket (demo_pkt 2) (with_dispatchers d (with_closed qDiscClosed full_state))
      = Some (Some ErrClosedForSend,
              with_dispatchers d (with_closed qDiscClosed full_state))).
Proof.
  apply (closed_rejects full_state (In_Close (CL_Assert 0))
           (with_closed qDiscClosed full_state) []
           (with_closed qDiscClosed full_state) (demo_pkt 2)).
  - reflexivity.
  - reflexivity.
Defined.

(** ** The shard of a packet *)

(** C8: with at least one shard, the shard a packet is queued on is
    [Hash mod shardCount], a valid index; a packet whose hash is 0 goes to
    shard 0. *)
Theorem shard_by_hash pkt s :
  (1 <= length (dispatchers s))%nat ->
  0 <= Hash pkt < 2 ^ 32 ->
  let n := Z.of_nat (length (dispatchers s)) in
  let i := Z.to_nat (Hash pkt mod n) in
  shard_index pkt n = Hash pkt mod n /\
  0 <= shard_index pkt n < n /\
  (Hash pkt = 0 -> shard_index pkt n = 0) /\
  (exists x, select_shard pkt s = Some (i, x)) /\
  (forall s', WritePacket pkt s = Some (None, s') ->
     exists x,
       dispatchers s !! i = Some x /\
       used (qd x) < limit (qd x) /\
       dispatchers s'
       = <[i := mkWorker (mkQD (limit (qd x)) (queue (qd x) ++ [pkt])
                               (wrap_int (used (qd x) + 1)) true (closeWaker (qd x)))
                         (pc x) (batch x)]> (dispatchers s)).
Proof.
  intros Hlen Hh n i.
  assert (Hn : 1 <= n) by (unfold n; lia).
  assert (Hidx : shard_index pkt n = Hash pkt mod n).
  { unfold shard_index, int_rem. rewrite int_of_uint32_id by done.
    apply Z.rem_mod_nonneg; lia. }
  pose proof (Z.mod_pos_bound (Hash pkt) n ltac:(lia)) as Hb.
  assert (Hsel : exists x, select_shard pkt s = Some (i, x)).
  { unfold select_shard. fold n. rewrite Hidx.
    destruct (Z.eqb_spec n 0); [lia|].
    destruct (Z.ltb_spec (Hash pkt mod n) 0); [lia|]. fold i.
    destruct (dispatchers s !! i) as [x|] eqn:Hx; [eauto|].
    apply lookup_ge_None in Hx. unfold i, n in *. lia. }
  split; [exact Hidx|]. split; [lia|]. split; [|split; [exact Hsel|]].
  - intros H0. rewrite Hidx, H0. apply Z.mod_0_l. lia.
  - intros s' Hw. destruct Hsel as [x Hsel]. exists x.
    assert (Hx : dispatchers s !! i = Some x).
    { revert Hsel. unfold select_shard.
      destruct (_ =? 0); [discriminate|]. destruct (_ <? 0); [discriminate|].
      destruct (dispatchers s !! _) as [y|] eqn:Hy; [|discriminate].
      intros H; inversion H; subst. exact Hy. }
    split; [exact Hx|].
    revert Hw. unfold WritePacket, WritePacket_locked. rewrite Hsel.
    destruct (closed s =? qDiscClosed); [discriminate|].
    destruct (Z.ltb_spec (used (qd x)) (limit (qd x))) as [Hlt|]; [|discriminate].
    intros H; inversion H; subst; clear H. split; [exact Hlt|].
    unfold Assert_newPacket, PushBack. unfold_state.
    rewrite list_lookup_insert_eq by (by eapply lookup_lt_Some).
    simpl. by rewrite list_insert_insert_eq.
Qed.

Example two_shards_hash_3 :
  option_map (fun r => (fst r, dispatchers (snd r), trace (snd r)))
             (WritePacket (mkPkt 9 3) two_shards)
  = Some (None,
          [New_worker 4;
           mkWorker (mkQD 4 [mkPkt 9 3] 1 true false) AtFetch []],
          [Enqueued 1 (mkPkt 9 3)]).
Proof. reflexivity. Qed.

Lemma shard_by_hash_witness :
  let pkt := mkPkt 9 3 in
  let n := Z.of_nat (length (dispatchers two_shards)) in
  let i := Z.to_nat (Hash pkt mod n) in
  shard_index pkt n = Hash pkt mod n /\
  0 <= shard_index pkt n < n /\
  (Hash pkt = 0 -> shard_index pkt n = 0) /\
  (exists x, select_shard pkt two_shards = Some (i, x)) /\
  (forall s', WritePacket pkt two_shards = Some (None, s') ->
     exists x,
       dispatchers two_shards !! i = Some x /\
       used (qd x) < limit (qd x) /\
       dispatchers s'
       = <[i := mkWorker (mkQD (limit (qd x)) (queue (qd x) ++ [pkt])
                               (wrap_int (used (qd x) + 1)) true (closeWaker (qd x)))
                         (pc x) (batch x)]> (dispatchers two_shards)).
Proof.
  apply (shard_by_hash (mkPkt 9 3) two_shards).
  - simpl. lia.
  - simpl. lia.
Defined.

(** ** Shutdown *)

Lemma local_step_shut_down i j x h x' evs h' :
  local_step j x h x' evs h' -> shut_down x ->
  shut_down x' /\ batches_of i evs = [].
Proof.
  unfold shut_down.
  intros Hs Hsd. destruct Hs; simpl; try (split; [exact Hsd | reflexivity]);
    try (destruct Hsd; congruence).
  split; [by right | apply batches_of_map].
Qed.

Lemma exec_shut_down i a s s' x :
  exec a s = Some s' ->
  dispatchers s !! i = Some x -> shut_down x ->
  exists x', dispatchers s' !! i = Some x' /\ shut_down x' /\
             batches_of i (trace s') = batches_of i (trace s).
Proof.
  intros He Hx Hsd.
  apply exec_cases in He as [_ [(Hd & Ht & _) | (j & y & y' & evs & Hy & Hs & Hd & Ht)]].
  - exists x. by rewrite Hd, Ht.
  - rewrite Hd, Ht, batches_of_app.
    destruct (decide (i = j)) as [-> | Hne].
    + rewrite Hx in Hy. inversion Hy; subst y.
      destruct (local_step_shut_down j j _ _ _ _ _ Hs Hsd) as [Hsd' Hb].
      exists y'. rewrite list_lookup_insert_eq by (by eapply lookup_lt_Some).
      rewrite Hb, app_nil_r. done.
    + destruct (local_step_other i j _ _ _ _ _ Hs Hne) as (_ & Hb & _).
      exists x. rewrite list_lookup_insert_ne by done.
      rewrite Hb, app_nil_r. done.
Qed.

(** A loop that has seen the close waker never calls [WritePackets] again. *)
Lemma run_shut_down i ls : forall s s' x,
  run ls s = Some s' ->
  dispatchers s !! i = Some x -> shut_down x ->
  batches_of i (trace s') = batches_of i (trace s).
Proof.
  induction ls as [|a ls IH]; intros s s' x Hr Hx Hsd; simpl in Hr.
  - by inversion Hr; subst.
  - destruct (exec a s) as [s1|] eqn:He; [|discriminate].
    destruct (exec_shut_down i _ _ _ _ He Hx Hsd) as (x1 & Hx1 & Hsd1 & Hb).
    rewrite <- Hb. eapply IH; eauto.
Qed.

(** C5: when the loop of a shard has fetched its close waker, its batch is
    empty; its next step releases every packet of the queue ([DecRef], no
    [WritePackets]), leaves the queue empty and [used] at 0, and the loop has
    returned and moves no more; and from the moment the close waker was
    fetched, whatever else happens, the shard passes nothing to the
    transmitter any more. *)
Theorem shutdown_discards n queueLen h s0 ls s i x w :
  is_int queueLen ->
  New n queueLen h = Some s0 ->
  run ls s0 = Some s ->
  dispatchers s !! i = Some x ->
  pc x = AtShutdown ->
  batch x = [] /\
  (exists s' x',
      exec (Loop i w) s = Some s' /\
      dispatchers s' !! i = Some x' /\
      pc x' = Returned /\ queue (qd x') = [] /\ used (qd x') = 0 /\ batch x' = [] /\
      trace s' = trace s ++ map (Discarded i) (queue (qd x)) /\
      (forall p, refs s' p = refs s p - occ p (queue (qd x))) /\
      (forall w', exec (Loop i w') s' = None)) /\
  (forall ls' s'',
      run ls' s = Some s'' ->
      batches_of i (trace s'') = batches_of i (trace s)).
Proof.
  intros Hint HN Hr Hx Hpc.
  pose proof (reachable_inv queueLen Hint n h s0 ls s HN Hr) as [Hsh _ Hab].
  destruct (Hsh i x Hx) as [Hlim Hused Hcap Hb _ _ _ _].
  unfold batch_ok in Hb. rewrite Hpc in Hb.
  assert (Hne : dispatchers s <> []) by (intros Hnil; by rewrite Hnil in Hx).
  split; [exact Hb|]. split.
  - unfold exec. rewrite (Hab Hne). unfold dispatchLoop_step.
    rewrite Hx, Hpc, shutdown_drain_spec.
    eexists. eexists. split; [reflexivity|]. unfold_state.
    rewrite list_lookup_insert_eq by (by eapply lookup_lt_Some).
    split; [reflexivity|]. simpl.
    repeat split; try done.
    + apply used_after_Len; [done|]. destruct Hint as [_ Hhi].
      rewrite max_int_val in *. lia.
    + intros p. apply List_DecRef_at.
    + intros w'. unfold exec, dispatchLoop_step. simpl. by rewrite (Hab Hne).
  - intros ls' s'' Hr'. eapply run_shut_down; eauto. by left.
Qed.

Lemma shutdown_discards_witness :
  batch close_worker = [] /\
  (exists s' x',
      exec (Loop 0 CloseWaker) close_state = Some s' /\
      dispatchers s' !! 0%nat = Some x' /\
      pc x' = Returned /\ queue (qd x') = [] /\ used (qd x') = 0 /\ batch x' = [] /\
      trace s' = trace close_state ++ map (Discarded 0) (queue (qd close_worker)) /\
      (forall p, refs s' p = refs close_state p - occ p (queue (qd close_worker))) /\
      (forall w', exec (Loop 0 w') s' = None)) /\
  (forall ls' s'',
      run ls' close_state = Some s'' ->
      batches_of 0 (trace s'') = batches_of 0 (trace close_state)).
Proof.
  apply (shutdown_discards 1 4 demo_heap demo_init close_schedule close_state 0%nat
           close_worker CloseWaker is_int_4).
  - reflexivity.
  - vm_compute. reflexivity.
  - reflexivity.
  - reflexivity.
Defined.

(** ** A call of WritePacket that races with Close *)

Lemma Returned_insert_flags (d : list worker) i x nw cw :
  Forall (fun y => pc y = Returned) d ->
  d !! i = Some x ->
  Forall (fun y => pc y = Returned)
    (<[i := mkWorker (mkQD (limit (qd x)) (queue (qd x)) (used (qd x)) nw cw)
                     (pc x) (batch x)]> d).
Proof.
  intros Hd Hx. apply Forall_insert; [done|]. simpl.
  rewrite Forall_forall in Hd. apply Hd. by eapply list_elem_of_lookup_2.
Qed.

Lemma thread_step_finished t s t' s' :
  thread_step t s = Some (t', s') ->
  finished s -> quiet t ->
  quiet t' /\ closed s' = qDiscClosed /\
  Forall (fun x => pc x = Returned) (dispatchers s') /\
  threads s' = threads s /\ refs s' = refs s /\ trace s' = trace s.
Proof.
  intros H [Hc Hl Ht] Hq.
  destruct t as [pkt p | p]; destruct p; simpl in H; try discriminate; try done.
  - rewrite Hc in H. simpl in H. by inversion H; subst.
  - inversion H; subst; clear H. unfold Assert_newPacket.
    destruct (dispatchers s !! i) as [x|] eqn:Hx; [|done].
    unfold_state. repeat split; try done. by apply Returned_insert_flags.
  - by inversion H; subst.
  - destruct (Nat.ltb i (length (dispatchers s))); inversion H; subst; clear H; [|done].
    unfold Assert_close.
    destruct (dispatchers s !! i) as [x|] eqn:Hx; [|done].
    unfold_state. repeat split; try done. by apply Returned_insert_flags.
  - destruct (wg s =? 0); by inversion H; subst.
Qed.

Lemma exec_finished a s s' :
  exec a s = Some s' -> finished s ->
  finished s' /\ refs s' = refs s /\ trace s' = trace s.
Proof.
  unfold exec. destruct (aborted s); [discriminate|].
  intros H Hf. pose proof Hf as [Hc Hl Ht].
  destruct a as [pkt | | k | i w].
  - inversion H; subst; clear H. split; [|done].
    split; simpl; [done | done|]. apply Forall_app. split; [done|]. by constructor.
  - inversion H; subst; clear H. split; [|done].
    split; simpl; [done | done|]. apply Forall_app. split; [done|]. by constructor.
  - destruct (threads s !! k) as [t|] eqn:Hk; [|discriminate].
    destruct (thread_step t s) as [[t' s1]|] eqn:Hs; [|discriminate].
    inversion H; subst; clear H.
    assert (Hq : quiet t).
    { rewrite Forall_forall in Ht. apply Ht. by eapply list_elem_of_lookup_2. }
    destruct (thread_step_finished _ _ _ _ Hs Hf Hq) as (Hq' & Hc' & Hl' & Hth & Hr & Htr).
    split; [|done]. split; simpl; [done | done|].
    rewrite Hth. by apply Forall_insert.
  - exfalso. revert H. unfold dispatchLoop_step.
    destruct (dispatchers s !! i) as [x|] eqn:Hx; [|discriminate].
    rewrite Forall_forall in Hl.
    rewrite (Hl x) by (by eapply list_elem_of_lookup_2). discriminate.
Qed.

(** Once everything is over, no reference count and no trace changes any
    more: what is in a queue then stays there, unreleased. *)
Lemma run_finished ls : forall s s',
  run ls s = Some s' -> finished s ->
  finished s' /\ refs s' = refs s /\ trace s' = trace s.
Proof.
  induction ls as [|a ls IH]; intros s s' Hr Hf; simpl in Hr.
  - by inversion Hr; subst.
  - destruct (exec a s) as [s1|] eqn:He; [|discriminate].
    destruct (exec_finished _ _ _ He Hf) as (Hf1 & Hr1 & Ht1).
    destruct (IH _ _ Hr Hf1) as (Hf2 & Hr2 & Ht2).
    split; [done|]. split; congruence.
Qed.

(** C2 at the race: [WritePacket] has returned [nil] and [Close] has
    returned; the packet has been acquired once and sits in the queue of a
    shard whose loop has returned; it has been released by nobody, and it
    never will be, whatever happens next. *)
Theorem racing_submit_is_never_released :
  New 1 4 demo_heap = Some demo_init /\
  run race_schedule demo_init = Some race_state /\
  threads race_state
  = [In_WritePacket (demo_pkt 1) (WP_Done None); In_Close CL_Done] /\
  dispatchers race_state
  = [mkWorker (mkQD 4 [demo_pkt 1] 1 true false) Returned []] /\
  trace race_state = [Enqueued 0 (demo_pkt 1)] /\
  refs race_state 1%nat = demo_heap 1%nat + 1 /\
  (forall ls s',
      run ls race_state = Some s' ->
      refs s' 1%nat = demo_heap 1%nat + 1 /\
      trace s' = [Enqueued 0 (demo_pkt 1)]).
Proof.
  split; [reflexivity|]. split; [vm_compute; reflexivity|].
  split; [reflexivity|]. split; [reflexivity|]. split; [reflexivity|].
  split; [reflexivity|].
  intros ls s' Hr.
  assert (Hf : finished race_state).
  { split; simpl.
    - reflexivity.
    - repeat constructor.
    - repeat constructor. }
  destruct (run_finished ls _ _ Hr Hf) as (_ & Hrefs & Htr).
  rewrite Hrefs, Htr. split; reflexivity.
Qed.

(** ** Reference counts and the trace *)

Lemma dropped_map j q : dropped (map (Discarded j) q) = q.
Proof. induction q as [|p q IH]; [done|]. simpl. f_equal. exact IH. Qed.

Lemma acquired_map j q : acquired (map (Discarded j) q) = [].
Proof. induction q as [|p q IH]; [done|]. simpl. exact IH. Qed.

Lemma local_step_refs i x h x' evs h' p :
  local_step i x h x' evs h' ->
  h' p = h p + occ p (acquired evs) - occ p (dropped evs).
Proof.
  intros Hs. destruct Hs; simpl; rewrite ?occ_nil, ?app_nil_r; try lia.
  - rewrite IncRef_at. lia.
  - rewrite List_DecRef_at. lia.
  - rewrite List_DecRef_at, acquired_map, dropped_map, occ_nil. lia.
Qed.

(** The count of a buffer is what it was when the discipline was created,
    plus one for each time it was queued, minus one for each time it left
    in a written batch or at shutdown. *)
Lemma refcount_accounting n queueLen h s0 ls s p :
  New n queueLen h = Some s0 ->
  run ls s0 = Some s ->
  refs s p = h p + occ p (acquired (trace s)) - occ p (dropped (trace s)).
Proof.
  intros HN Hr.
  assert (H0 : refs s0 p = h p + occ p (acquired (trace s0)) - occ p (dropped (trace s0))).
  { unfold New in HN. destruct (n <? 0); [discriminate|]. inversion HN; subst. simpl.
    rewrite occ_nil. lia. }
  clear HN. revert s0 s Hr H0.
  induction ls as [|a ls IH]; intros s0 s Hr H0; simpl in Hr.
  - by inversion Hr; subst.
  - destruct (exec a s0) as [s1|] eqn:He; [|discriminate].
    eapply IH; [exact Hr|].
    apply exec_cases in He as [_ [(_ & Ht & Hh) | (j & x & x' & evs & _ & Hs & _ & Ht)]].
    + by rewrite Ht, Hh.
    + rewrite Ht. unfold acquired, dropped. rewrite !flat_map_app, !occ_app.
      rewrite (local_step_refs _ _ _ _ _ _ p Hs), H0. unfold acquired, dropped. lia.
Qed.

(** * More of the code *)

(** ** The number of shards *)

Lemma run_length ls : forall s s',
  run ls s = Some s' -> length (dispatchers s') = length (dispatchers s).
Proof.
  induction ls as [|a ls IH]; intros s s' Hr; simpl in Hr.
  - by inversion Hr; subst.
  - destruct (exec a s) as [s1|] eqn:He; [|discriminate].
    rewrite (IH _ _ Hr). by eapply exec_length.
Qed.

(** ** Reference counts *)

(** X3: in every state the system reaches, the packets queued on a shard
    are, in order, those it released after a write, those it discarded at
    shutdown, its batch and its queue: a packet leaves a shard by one way
    only, and as often as it was queued at most. *)
Theorem released_in_queue_order n queueLen h s0 ls s i x :
  is_int queueLen ->
  New n queueLen h = Some s0 ->
  run ls s0 = Some s ->
  dispatchers s !! i = Some x ->
  enqueued_of i (trace s)
  = released_of i (trace s) ++ discarded_of i (trace s) ++ batch x ++ queue (qd x)
  /\ (discarded_of i (trace s) = [] \/ batch x = []).
Proof.
  intros Hint HN Hr Hx.
  pose proof (reachable_inv queueLen Hint n h s0 ls s HN Hr) as [Hsh _ _].
  destruct (Hsh i x Hx) as [_ _ _ Hb _ Henq _ Hdisc].
  split; [exact Henq|].
  destruct Hdisc as [Hd | Hret]; [by left | right].
  unfold batch_ok in Hb. by rewrite Hret in Hb.
Qed.

Lemma released_in_queue_order_witness :
  exists x,
    dispatchers demo_final !! 0%nat = Some x /\
    enqueued_of 0 (trace demo_final)
    = released_of 0 (trace demo_final) ++ discarded_of 0 (trace demo_final)
      ++ batch x ++ queue (qd x)
    /\ (discarded_of 0 (trace demo_final) = [] \/ batch x = []).
Proof.
  eexists. split; [reflexivity|].
  apply (released_in_queue_order 1 4 demo_heap demo_init demo_schedule demo_final 0%nat _
           is_int_4).
  - reflexivity.
  - vm_compute. reflexivity.
  - reflexivity.
Defined.

(** A sum over the shards when one shard changes. *)
Lemma sum_insert (f : worker -> Z) (d : list worker) : forall j x x',
  d !! j = Some x ->
  fold_right (fun y acc => f y + acc) 0 (<[j := x']> d)
  = fold_right (fun y acc => f y + acc) 0 d - f x + f x'.
Proof.
  induction d as [|y d IH]; intros j x x' Hj; [done|].
  destruct j as [|j]; simpl in *.
  - inversion Hj; subst. lia.
  - rewrite (IH j x x' Hj). lia.
Qed.

(** The inner loop moves packets from the front of the queue to the back
    of the batch, whatever [used] is. *)
Lemma drain_moves q : forall u b q' u' b' flush,
  drain q u b = (q', u', b', flush) ->
  exists taken, q = taken ++ q' /\ b' = b ++ taken /\ (flush = false -> q' = []).
Proof.
  induction q as [|p q IH]; intros u b q' u' b' flush Hd; simpl in Hd.
  - inversion Hd; subst. exists []. simpl. rewrite app_nil_r. repeat split; reflexivity.
  - destruct ((Len (PushBack b p) <? BatchSize) && negb (wrap_int (u - 1) =? 0)).
    + destruct (IH _ _ _ _ _ _ Hd) as (taken & -> & -> & Hf).
      exists (p :: taken). unfold PushBack. rewrite <- app_assoc. repeat split; done.
    + inversion Hd; subst. exists [p]. repeat split; done.
Qed.

Lemma local_step_held i x h x' evs h' p :
  local_step i x h x' evs h' ->
  h' p - (occ p (batch x') + occ p (queue (qd x')))
  = h p - (occ p (batch x) + occ p (queue (qd x))).
Proof.
  intros Hs. destruct Hs as [pkt Hlt | nw cw | w Hat Hw | q' u' b' flush Hat Hd | Hat | Hat | Hat];
    simpl; rewrite ?occ_nil; try lia.
  - unfold PushBack. rewrite IncRef_at, occ_app. lia.
  - destruct Hw as [-> | ->]; simpl; lia.
  - destruct (drain_moves _ _ _ _ _ _ _ Hd) as (taken & Hq & -> & _).
    rewrite Hq, !occ_app. lia.
  - rewrite List_DecRef_at. lia.
  - rewrite List_DecRef_at. lia.
Qed.

Lemma exec_held a s s' p :
  exec a s = Some s' ->
  refs s' p - held p (dispatchers s') = refs s p - held p (dispatchers s).
Proof.
  intros He.
  apply exec_cases in He as [_ [(Hd & _ & Hh) | (j & x & x' & evs & Hx & Hs & Hd & _)]].
  - by rewrite Hd, Hh.
  - rewrite Hd. unfold held.
    rewrite (sum_insert (fun y => occ p (batch y) + occ p (queue (qd y))) _ j x x' Hx).
    pose proof (local_step_held _ _ _ _ _ _ p Hs). lia.
Qed.

(** X4: the count of a buffer is always what it was when the discipline
    was created plus the number of places the buffer has in the queues and
    batches of the discipline: a reference is taken when a packet is queued
    and given back when it leaves a batch or is discarded, and at no other
    time. *)
Theorem refcount_is_ownership n queueLen h s0 ls s p :
  New n queueLen h = Some s0 ->
  run ls s0 = Some s ->
  refs s p = h p + held p (dispatchers s).
Proof.
  intros HN Hr.
  assert (H0 : refs s0 p - held p (dispatchers s0) = h p).
  { unfold New in HN. destruct (n <? 0); [discriminate|]. inversion HN; subst. simpl.
    assert (Hz : forall k, held p (replicate k (New_worker queueLen)) = 0).
    { induction k as [|k IH]; [done|].
      change (held p (replicate (S k) (New_worker queueLen)))
        with ((occ p [] + occ p []) + held p (replicate k (New_worker queueLen))).
      rewrite IH, occ_nil. lia. }
    rewrite Hz. lia. }
  clear HN. revert s0 s Hr H0.
  induction ls as [|a ls IH]; intros s0 s Hr H0; simpl in Hr.
  - inversion Hr; subst. lia.
  - destruct (exec a s0) as [s1|] eqn:He; [|discriminate].
    eapply IH; [exact Hr|]. rewrite (exec_held _ _ _ p He). exact H0.
Qed.

Lemma refcount_is_ownership_witness :
  refs demo_final 3%nat = demo_heap 3%nat + held 3 (dispatchers demo_final)
  /\ held 3 (dispatchers demo_final) = 1.
Proof.
  split; [|reflexivity].
  apply (refcount_is_ownership 1 4 demo_heap demo_init demo_schedule demo_final 3%nat).
  - reflexivity.
  - vm_compute. reflexivity.
Defined.

(** ** The wait group and Close *)

Lemma select_shard_lookup pkt s i x :
  select_shard pkt s = Some (i, x) -> dispatchers s !! i = Some x.
Proof.
  unfold select_shard.
  destruct (_ =? 0); [discriminate|]. destruct (_ <? 0); [discriminate|].
  destruct (dispatchers s !! _) as [y|] eqn:Hy; [|discriminate].
  intros H; inversion H; subst. exact Hy.
Qed.

Lemma loops_running_insert d j x x' :
  d !! j = Some x ->
  loops_running (<[j := x']> d) = loops_running d - running x + running x'.
Proof. apply (sum_insert running). Qed.

Lemma loops_running_nonneg d : 0 <= loops_running d.
Proof.
  induction d as [|x d IH]; simpl; [lia|].
  unfold running. destruct (pc x); lia.
Qed.

Lemma loops_running_zero d :
  loops_running d = 0 -> Forall (fun x => pc x = Returned) d.
Proof.
  induction d as [|x d IH]; simpl; intros H; [constructor|].
  pose proof (loops_running_nonneg d).
  assert (Hx : running x = 0) by (unfold running in *; destruct (pc x); lia).
  constructor; [|apply IH; lia].
  unfold running in Hx. destruct (pc x); (done || lia).
Qed.

Lemma thread_step_wg t s t' s' :
  thread_step t s = Some (t', s') ->
  wg s' = wg s /\ loops_running (dispatchers s') = loops_running (dispatchers s).
Proof.
  intros H. destruct t as [pkt p | p]; destruct p; simpl in H; try discriminate.
  - destruct (closed s =? qDiscClosed); by inversion H; subst.
  - revert H. unfold WritePacket_locked.
    destruct (select_shard pkt s) as [[i x]|] eqn:Hsel; [|by intros H; inversion H; subst].
    apply select_shard_lookup in Hsel.
    destruct (used (qd x) <? limit (qd x)); intros H; inversion H; subst; clear H; [|done].
    unfold_state. split; [done|]. rewrite (loops_running_insert _ _ _ _ Hsel).
    unfold running. simpl. lia.
  - inversion H; subst; clear H. unfold Assert_newPacket.
    destruct (dispatchers s !! i) as [x|] eqn:Hx; [|done].
    unfold_state. split; [done|]. rewrite (loops_running_insert _ _ _ _ Hx).
    unfold running. simpl. lia.
  - by inversion H; subst.
  - destruct (Nat.ltb i (length (dispatchers s))); inversion H; subst; clear H; [|done].
    unfold Assert_close.
    destruct (dispatchers s !! i) as [x|] eqn:Hx; [|done].
    unfold_state. split; [done|]. rewrite (loops_running_insert _ _ _ _ Hx).
    unfold running. simpl. lia.
  - destruct (wg s =? 0); by inversion H; subst.
Qed.

Lemma dispatchLoop_step_wg i w s s' :
  dispatchLoop_step i w s = Some s' ->
  wg s' - loops_running (dispatchers s') = wg s - loops_running (dispatchers s)
  /\ threads s' = threads s /\ wg s' <= wg s.
Proof.
  unfold dispatchLoop_step.
  destruct (dispatchers s !! i) as [x|] eqn:Hx; [|discriminate].
  destruct (pc x) eqn:Hpc; try discriminate.
  - destruct (Fetch loop_sleeper (qd x) w) as [q'|] eqn:Hf; [|discriminate].
    apply Fetch_registered in Hf as [[-> | ->] ->]; intros H; inversion H; subst; clear H;
      unfold on_wake; unfold_state; rewrite (loops_running_insert _ _ _ _ Hx);
      unfold running; rewrite Hpc; simpl; repeat split; (lia || done).
  - destruct (drain _ _ _) as [[[q' u'] b'] flush].
    intros H; inversion H; subst; clear H.
    unfold_state. rewrite (loops_running_insert _ _ _ _ Hx).
    unfold running. rewrite Hpc. simpl. repeat split; try done; destruct flush; lia.
  - intros H; inversion H; subst; clear H.
    unfold_state. rewrite (loops_running_insert _ _ _ _ Hx).
    unfold running. rewrite Hpc. simpl. repeat split; (lia || done).
  - intros H; inversion H; subst; clear H.
    unfold_state. rewrite (loops_running_insert _ _ _ _ Hx).
    unfold running. rewrite Hpc. simpl. repeat split; (lia || done).
  - rewrite shutdown_drain_spec. intros H; inversion H; subst; clear H.
    unfold_state. rewrite (loops_running_insert _ _ _ _ Hx).
    unfold running. rewrite Hpc. simpl. repeat split; (lia || done).
Qed.

Lemma exec_wg_inv a s s' : exec a s = Some s' -> wg_inv s -> wg_inv s'.
Proof.
  unfold exec, wg_inv, Close_returned. destruct (aborted s); [discriminate|].
  intros H [Hwg Hcl]. destruct a as [pkt | | k | i w].
  - inversion H; subst; clear H. simpl. split; [done|].
    intros Hin. apply in_app_or in Hin as [Hin | [Hin | []]]; [auto | discriminate].
  - inversion H; subst; clear H. simpl. split; [done|].
    intros Hin. apply in_app_or in Hin as [Hin | [Hin | []]]; [auto | discriminate].
  - destruct (threads s !! k) as [t|] eqn:Hk; [|discriminate].
    destruct (thread_step t s) as [[t' s1]|] eqn:Hs; [|discriminate].
    inversion H; subst; clear H. simpl.
    destruct (thread_step_wg _ _ _ _ Hs) as [Hw Hl].
    split; [congruence|]. intros Hin.
    apply list_elem_of_In, list_elem_of_lookup in Hin as [k' Hk'].
    destruct (decide (k = k')) as [<- | Hne].
    + rewrite list_lookup_insert_eq in Hk'
        by (destruct (thread_step_cases _ _ _ _ Hs) as [-> _]; by eapply lookup_lt_Some).
      inversion Hk'; subst t'.
      destruct t as [pkt p | p]; destruct p; simpl in Hs; try discriminate;
        try (destruct (closed s =? qDiscClosed); inversion Hs; fail);
        try (destruct (WritePacket_locked pkt s) as [[[j|] s2]|]; inversion Hs; fail);
        try (inversion Hs; fail);
        try (destruct (Nat.ltb i (length (dispatchers s))); inversion Hs; fail).
      destruct (Z.eqb_spec (wg s) 0); inversion Hs; subst. done.
    + rewrite list_lookup_insert_ne in Hk' by done.
      destruct (thread_step_cases _ _ _ _ Hs) as [Hth _]. rewrite Hth in Hk'.
      rewrite Hw. apply Hcl. apply list_elem_of_In. by eapply list_elem_of_lookup_2.
  - destruct (dispatchLoop_step_wg _ _ _ _ H) as (Hw & Hth & Hle).
    split; [lia|]. rewrite Hth. intros Hin. specialize (Hcl Hin).
    pose proof (loops_running_nonneg (dispatchers s')). lia.
Qed.

Lemma New_wg_inv n queueLen h s0 : New n queueLen h = Some s0 -> wg_inv s0.
Proof.
  unfold New. destruct (Z.ltb_spec n 0) as [Hn | Hn]; [discriminate|].
  intros HN; inversion HN; subst; clear HN. split; simpl; [|intros []].
  assert (Hk : forall k, loops_running (replicate k (New_worker queueLen)) = Z.of_nat k).
  { induction k as [|k IH]; [done|].
    change (loops_running (replicate (S k) (New_worker queueLen)))
      with (1 + loops_running (replicate k (New_worker queueLen))).
    rewrite IH. lia. }
  rewrite Hk. lia.
Qed.

Lemma run_wg_inv ls : forall s s', run ls s = Some s' -> wg_inv s -> wg_inv s'.
Proof.
  induction ls as [|a ls IH]; intros s s' Hr Hinv; simpl in Hr.
  - by inversion Hr; subst.
  - destruct (exec a s) as [s1|] eqn:He; [|discriminate].
    eapply IH; [exact Hr|]. by eapply exec_wg_inv.
Qed.

(** X5: the counter of the wait group is the number of dispatch loops that
    have not returned, in every state the system reaches; so [Close], which
    waits for 0, has returned only when every loop has returned. *)
Theorem Close_waits_for_the_loops n queueLen h s0 ls s :
  New n queueLen h = Some s0 ->
  run ls s0 = Some s ->
  wg s = loops_running (dispatchers s) /\
  (Close_returned s -> Forall (fun x => pc x = Returned) (dispatchers s)).
Proof.
  intros HN Hr.
  destruct (run_wg_inv ls s0 s Hr (New_wg_inv _ _ _ _ HN)) as [Hwg Hcl].
  split; [exact Hwg|]. intros Hret. apply loops_running_zero. rewrite <- Hwg. auto.
Qed.

Lemma Close_waits_for_the_loops_witness :
  wg race_state = loops_running (dispatchers race_state) /\
  (Close_returned race_state ->
   Forall (fun x => pc x = Returned) (dispatchers race_state)).
Proof.
  apply (Close_waits_for_the_loops 1 4 demo_heap demo_init race_schedule race_state).
  - reflexivity.
  - vm_compute. reflexivity.
Defined.

(** ** What the inner loop takes *)

Lemma drain_fills_batch q : forall u b,
  q <> [] -> u = Len q -> Len q <= max_int -> (length b < 32)%nat ->
  drain q u b
  = (drop (32 - length b) q, Len (drop (32 - length b) q),
     b ++ take (32 - length b) q, true).
Proof.
  induction q as [|p q IH]; intros u b Hne Hu Hmax Hb; [done|]. simpl drain.
  rewrite Len_cons in Hu, Hmax. pose proof (Len_nonneg q) as Hq.
  assert (Hw : wrap_int (u - 1) = Len q).
  { rewrite wrap_int_id; [lia|]. unfold is_int. rewrite min_int_val. lia. }
  rewrite Hw.
  destruct (32 - length b)%nat as [|k] eqn:Hk; [lia|].
  simpl drop. simpl take. unfold PushBack.
  destruct ((Len (b ++ [p]) <? BatchSize) && negb (Len q =? 0)) eqn:Hc.
  - apply andb_true_iff in Hc as [Hlt Hnz].
    apply Z.ltb_lt in Hlt. apply negb_true_iff, Z.eqb_neq in Hnz.
    rewrite Len_app in Hlt. change (Len [p]) with 1 in Hlt.
    unfold Len, BatchSize in Hlt.
    rewrite IH; [| by intros -> | done | lia | rewrite length_app; simpl; lia].
    rewrite length_app. simpl length.
    replace (32 - (length b + 1))%nat with k by lia.
    by rewrite <- app_assoc.
  - apply andb_false_iff in Hc as [Hge | Hz].
    + apply Z.ltb_ge in Hge. rewrite Len_app in Hge. change (Len [p]) with 1 in Hge.
      unfold Len, BatchSize in Hge. assert (k = 0%nat) as -> by lia.
      by rewrite drop_0, take_0.
    + apply negb_false_iff, Z.eqb_eq, Len_zero in Hz. subst q.
      by rewrite drop_nil, take_nil.
Qed.

(** X6: one critical section of the inner loop, entered with an empty
    batch, takes the first 32 packets of the queue, or all of them when
    there are fewer, in their order, and leaves the rest in the queue with
    [used] at their number; on an empty queue it takes nothing and the loop
    goes back to [Fetch]. *)
Theorem batch_is_queue_prefix q u :
  u = Len q -> Len q <= max_int ->
  drain q u []
  = if decide (q = []) then ([], u, [], false)
    else (drop 32 q, Len (drop 32 q), take 32 q, true).
Proof.
  intros Hu Hmax. destruct (decide (q = [])) as [-> | Hne]; [done|].
  rewrite (drain_fills_batch q u [] Hne Hu Hmax); [done | simpl; lia].
Qed.

Lemma batch_is_queue_prefix_witness :
  drain [demo_pkt 1; demo_pkt 2; demo_pkt 3] 3 []
  = if decide ([demo_pkt 1; demo_pkt 2; demo_pkt 3] = [])
    then ([], 3, [], false)
    else (drop 32 [demo_pkt 1; demo_pkt 2; demo_pkt 3],
          Len (drop 32 [demo_pkt 1; demo_pkt 2; demo_pkt 3]),
          take 32 [demo_pkt 1; demo_pkt 2; demo_pkt 3], true).
Proof.
  apply (batch_is_queue_prefix [demo_pkt 1; demo_pkt 2; demo_pkt 3] 3).
  - reflexivity.
  - rewrite max_int_val. unfold Len. simpl. lia.
Defined.

(** ** The loop left alone *)

Lemma step_AtDrain i w s x q' u' b' flush :
  aborted s = false -> dispatchers s !! i = Some x -> pc x = AtDrain ->
  drain (queue (qd x)) (used (qd x)) (batch x) = (q', u', b', flush) ->
  exec (Loop i w) s
  = Some (set_worker i
            (mkWorker (mkQD (limit (qd x)) q' u' (newPacketWaker (qd x)) (closeWaker (qd x)))
                      (if flush then AtWrite else AtFetch) b') s).
Proof.
  intros Hab Hx Hpc Hd. unfold exec, dispatchLoop_step. by rewrite Hab, Hx, Hpc, Hd.
Qed.

Lemma step_AtWrite i w s x :
  aborted s = false -> dispatchers s !! i = Some x -> pc x = AtWrite ->
  exec (Loop i w) s
  = Some (log (Written i (batch x)) (set_worker i (mkWorker (qd x) AtRelease (batch x)) s)).
Proof.
  intros Hab Hx Hpc. unfold exec, dispatchLoop_step. by rewrite Hab, Hx, Hpc.
Qed.

Lemma step_AtRelease i w s x :
  aborted s = false -> dispatchers s !! i = Some x -> pc x = AtRelease ->
  exec (Loop i w) s
  = Some (log (Released i (batch x))
            (set_worker i (mkWorker (qd x) AtDrain (Reset (batch x)))
               (with_refs (List_DecRef (batch x) (refs s)) s))).
Proof.
  intros Hab Hx Hpc. unfold exec, dispatchLoop_step. by rewrite Hab, Hx, Hpc.
Qed.

(** A loop at the head of its inner loop that is left alone writes and
    releases the whole queue and parks. *)
Lemma drain_all i w m : forall s x,
  (length (queue (qd x)) <= m)%nat ->
  aborted s = false -> dispatchers s !! i = Some x ->
  pc x = AtDrain -> batch x = [] ->
  used (qd x) = Len (queue (qd x)) -> Len (queue (qd x)) <= max_int ->
  exists k s',
    run (replicate k (Loop i w)) s = Some s' /\
    dispatchers s'
    = <[i := mkWorker (mkQD (limit (qd x)) [] 0 (newPacketWaker (qd x)) (closeWaker (qd x)))
                      AtFetch []]> (dispatchers s) /\
    written_of i (trace s') = written_of i (trace s) ++ queue (qd x) /\
    released_of i (trace s') = released_of i (trace s) ++ queue (qd x) /\
    (forall p, refs s' p = refs s p - occ p (queue (qd x))) /\
    closed s' = closed s /\ threads s' = threads s /\ aborted s' = false.
Proof.
  induction m as [|m IH]; intros s x Hlen Hab Hx Hpc Hb Hused Hmax.
  - (* the queue is empty *)
    destruct (queue (qd x)) as [|p q] eqn:Hq; [|simpl in Hlen; lia].
    exists 1%nat. eexists. split.
    + simpl. rewrite (step_AtDrain i w s x [] (used (qd x)) (batch x) false Hab Hx Hpc);
        [reflexivity | by rewrite Hq].
    + unfold_state. rewrite Hused, Hb, !app_nil_r.
      change (Len []) with 0. repeat split; try done. intros p. rewrite occ_nil. lia.
  - destruct (drain (queue (qd x)) (used (qd x)) (batch x)) as [[[q' u'] b'] flush] eqn:Hd.
    destruct (drain_spec _ _ _ _ _ _ _ Hused Hmax Hd) as (taken & Hq & Hb' & Hu' & Hf).
    rewrite Hb in Hb'. simpl in Hb'. subst b' u'.
    pose proof (step_AtDrain i w s x _ _ _ _ Hab Hx Hpc Hd) as H1.
    destruct flush.
    + destruct Hf as [Hne _].
      set (x1 := mkWorker (mkQD (limit (qd x)) q' (Len q') (newPacketWaker (qd x))
                                (closeWaker (qd x))) AtWrite taken) in *.
      set (s1 := set_worker i x1 s) in *.
      assert (Hi : (i < length (dispatchers s))%nat) by (by eapply lookup_lt_Some).
      assert (Hx1 : dispatchers s1 !! i = Some x1)
        by (unfold s1; unfold_state; by apply list_lookup_insert_eq).
      pose proof (step_AtWrite i w s1 x1 Hab Hx1 eq_refl) as H2.
      set (x2 := mkWorker (qd x1) AtRelease (batch x1)) in *.
      set (s2 := log (Written i (batch x1)) (set_worker i x2 s1)) in *.
      assert (Hx2 : dispatchers s2 !! i = Some x2).
      { unfold s2, s1. unfold_state. apply list_lookup_insert_eq.
        by rewrite length_insert. }
      pose proof (step_AtRelease i w s2 x2 Hab Hx2 eq_refl) as H3.
      set (x3 := mkWorker (qd x2) AtDrain (Reset (batch x2))) in *.
      set (s3 := log (Released i (batch x2))
                   (set_worker i x3 (with_refs (List_DecRef (batch x2) (refs s2)) s2))) in *.
      assert (Hx3 : dispatchers s3 !! i = Some x3).
      { unfold s3, s2, s1. unfold_state. apply list_lookup_insert_eq.
        by rewrite !length_insert. }
      assert (Hlen' : (length q' <= m)%nat).
      { rewrite Hq, length_app in Hlen. destruct taken; [done|]. simpl in Hlen. lia. }
      assert (Hmax' : Len q' <= max_int).
      { rewrite Hq, Len_app in Hmax. pose proof (Len_nonneg taken). lia. }
      destruct (IH s3 x3 Hlen' Hab Hx3 eq_refl eq_refl eq_refl Hmax')
        as (k & s' & Hrun & Hd' & Hw' & Hr' & Hrefs' & Hc' & Ht' & Hab').
      exists (S (S (S k))), s'. split.
      { simpl. rewrite H1. simpl. rewrite H2. simpl. rewrite H3. exact Hrun. }
      split.
      { rewrite Hd'. unfold s3, s2, s1. unfold_state.
        by rewrite !list_insert_insert_eq. }
      split.
      { rewrite Hw'. unfold s3, s2, s1. unfold_state.
        rewrite !written_of_app. unfold written_of at 2 3. simpl.
        rewrite Nat.eqb_refl. simpl. rewrite !app_nil_r, Hq. by rewrite <- app_assoc. }
      split.
      { rewrite Hr'. unfold s3, s2, s1. unfold_state.
        rewrite !released_of_app. simpl.
        rewrite Nat.eqb_refl. simpl. rewrite !app_nil_r, Hq. by rewrite <- app_assoc. }
      split.
      { intros p. rewrite Hrefs'. unfold s3, s2, s1. unfold_state.
        rewrite List_DecRef_at, Hq, occ_app. lia. }
      repeat split; done.
    + destruct Hf as [-> ->]. simpl in Hq.
      exists 1%nat. eexists. split; [simpl; rewrite H1; reflexivity|].
      unfold_state. rewrite Hq, !app_nil_r. change (Len []) with 0.
      repeat split; try done. intros p. rewrite occ_nil. lia.
Qed.

(** X7: from any state the system reaches in which a loop stands at the
    head of its inner loop, that loop, left alone, gets to [Fetch] in a
    finite number of its own steps, having passed the whole queue to
    [WritePackets] in queue order and released each packet of it once; the
    queue is empty then, [used] is 0 and the batch is empty. *)
Theorem loop_alone_empties_queue n queueLen h s0 ls s i x w :
  is_int queueLen ->
  New n queueLen h = Some s0 ->
  run ls s0 = Some s ->
  dispatchers s !! i = Some x ->
  pc x = AtDrain ->
  exists k s',
    run (replicate k (Loop i w)) s = Some s' /\
    dispatchers s'
    = <[i := mkWorker (mkQD (limit (qd x)) [] 0 (newPacketWaker (qd x)) (closeWaker (qd x)))
                      AtFetch []]> (dispatchers s) /\
    written_of i (trace s') = written_of i (trace s) ++ queue (qd x) /\
    released_of i (trace s') = released_of i (trace s) ++ queue (qd x) /\
    (forall p, refs s' p = refs s p - occ p (queue (qd x))) /\
    closed s' = closed s /\ threads s' = threads s /\ aborted s' = false.
Proof.
  intros Hint HN Hr Hx Hpc.
  pose proof (reachable_inv queueLen Hint n h s0 ls s HN Hr) as [Hsh _ Hab].
  destruct (Hsh i x Hx) as [_ Hused Hcap Hb _ _ _ _].
  unfold batch_ok in Hb. rewrite Hpc in Hb.
  apply (drain_all i w (length (queue (qd x)))); try done.
  - apply Hab. intros Hnil. by rewrite Hnil in Hx.
  - destruct Hint as [_ Hhi]. rewrite max_int_val in *. lia.
Qed.

Lemma loop_alone_empties_queue_witness :
  exists k s',
    run (replicate k (Loop 0 NewPacketWaker)) drain_state = Some s' /\
    dispatchers s'
    = <[0%nat := mkWorker (mkQD (limit (qd drain_worker)) [] 0
                             (newPacketWaker (qd drain_worker))
                             (closeWaker (qd drain_worker)))
                          AtFetch []]> (dispatchers drain_state) /\
    written_of 0 (trace s') = written_of 0 (trace drain_state) ++ queue (qd drain_worker) /\
    released_of 0 (trace s') = released_of 0 (trace drain_state) ++ queue (qd drain_worker) /\
    (forall p, refs s' p = refs drain_state p - occ p (queue (qd drain_worker))) /\
    closed s' = closed drain_state /\ threads s' = threads drain_state /\
    aborted s' = false.
Proof.
  apply (loop_alone_empties_queue 1 4 demo_heap demo_init drain_schedule drain_state 0%nat
           drain_worker NewPacketWaker is_int_4).
  - reflexivity.
  - vm_compute. reflexivity.
  - reflexivity.
  - reflexivity.
Defined.

(** ** No wake-up is lost *)

Lemma about_to_wake_app i ts t : about_to_wake i ts -> about_to_wake i (ts ++ [t]).
Proof.
  intros (k & pkt & Hk). exists k, pkt. by apply lookup_app_l_Some.
Qed.

Lemma about_to_wake_keep i ts k t t' :
  ts !! k = Some t ->
  (forall pkt, t <> In_WritePacket pkt (WP_Assert i)) ->
  about_to_wake i ts -> about_to_wake i (<[k := t']> ts).
Proof.
  intros Hk Hne (k' & pkt & Hk'). exists k', pkt.
  rewrite list_lookup_insert_ne; [done|]. intros <-.
  rewrite Hk in Hk'. inversion Hk'. by eapply Hne.
Qed.

Lemma about_to_wake_here i ts k t pkt :
  ts !! k = Some t ->
  about_to_wake i (<[k := In_WritePacket pkt (WP_Assert i)]> ts).
Proof.
  intros Hk. exists k, pkt. apply list_lookup_insert_eq. by eapply lookup_lt_Some.
Qed.

(** The shards stay as they are and no caller about to wake a shard that
    exists goes away. *)
Lemma wake_ok_same s s' :
  wake_ok s ->
  dispatchers s' = dispatchers s ->
  (forall i x, dispatchers s !! i = Some x ->
               about_to_wake i (threads s) -> about_to_wake i (threads s')) ->
  wake_ok s'.
Proof.
  intros Hok Hd Hts i x Hx Hpc Hq. rewrite Hd in Hx.
  destruct (Hok i x Hx Hpc Hq) as [Hf | Ha]; [by left | right; eauto].
Qed.

(** Shard [j] changes. *)
Lemma wake_ok_change s s' j y y' :
  wake_ok s ->
  dispatchers s !! j = Some y ->
  dispatchers s' = <[j := y']> (dispatchers s) ->
  (forall i, i <> j -> about_to_wake i (threads s) -> about_to_wake i (threads s')) ->
  (pc y' = AtFetch -> queue (qd y') <> [] ->
   newPacketWaker (qd y') = true \/ about_to_wake j (threads s')) ->
  wake_ok s'.
Proof.
  intros Hok Hy Hd Hts Hj i x Hx Hpc Hq. rewrite Hd in Hx.
  destruct (decide (i = j)) as [-> | Hne].
  - rewrite list_lookup_insert_eq in Hx by (by eapply lookup_lt_Some).
    inversion Hx; subst. auto.
  - rewrite list_lookup_insert_ne in Hx by done.
    destruct (Hok i x Hx Hpc Hq) as [Hf | Ha]; [by left | right; auto].
Qed.

Lemma exec_wake_ok a s s' : exec a s = Some s' -> wake_ok s -> wake_ok s'.
Proof.
  unfold exec. destruct (aborted s); [discriminate|].
  intros H Hok. destruct a as [pkt | | k | i0 w].
  - inversion H; subst; clear H. eapply wake_ok_same; [exact Hok | reflexivity|].
    intros i x _ Ha. by apply about_to_wake_app.
  - inversion H; subst; clear H. eapply wake_ok_same; [exact Hok | reflexivity|].
    intros i x _ Ha. by apply about_to_wake_app.
  - destruct (threads s !! k) as [t|] eqn:Hk; [|discriminate].
    destruct (thread_step t s) as [[t' s1]|] eqn:Hs; [|discriminate].
    inversion H; subst; clear H.
    destruct t as [pkt p | p]; destruct p; simpl in Hs; try discriminate.
    + (* the load of closed *)
      assert (s1 = s) as -> by (destruct (closed s =? qDiscClosed); by inversion Hs).
      eapply wake_ok_same; [exact Hok | reflexivity|]. intros i x _ Ha.
      by apply (about_to_wake_keep i _ k _ t' Hk).
    + (* the critical section *)
      revert Hs. unfold WritePacket_locked.
      destruct (select_shard pkt s) as [[j y]|] eqn:Hsel.
      * apply select_shard_lookup in Hsel.
        destruct (used (qd y) <? limit (qd y)); intros Hs; inversion Hs; subst; clear Hs.
        -- eapply wake_ok_change; [exact Hok | exact Hsel | reflexivity | |].
           ++ intros i Hne Ha. by apply (about_to_wake_keep i _ k _ _ Hk).
           ++ intros _ _. right. by apply (about_to_wake_here j _ k _ pkt Hk).
        -- eapply wake_ok_same; [exact Hok | reflexivity|]. intros i x _ Ha.
           by apply (about_to_wake_keep i _ k _ _ Hk).
      * intros Hs; inversion Hs; subst; clear Hs.
        eapply wake_ok_same; [exact Hok | reflexivity|]. intros i x _ Ha.
        by apply (about_to_wake_keep i _ k _ _ Hk).
    + (* the waker is asserted *)
      inversion Hs; subst; clear Hs. unfold Assert_newPacket.
      destruct (dispatchers s !! i) as [y|] eqn:Hy.
      * eapply wake_ok_change; [exact Hok | exact Hy | reflexivity | |].
        -- intros i' Hne Ha. apply (about_to_wake_keep i' _ k _ _ Hk); [|done].
           intros pkt' Heq. inversion Heq. congruence.
        -- intros _ _. by left.
      * eapply wake_ok_same; [exact Hok | reflexivity|]. intros i' x Hx Ha.
        apply (about_to_wake_keep i' _ k _ _ Hk); [|done].
        intros pkt' Heq. inversion Heq. congruence.
    + (* the store of closed *)
      inversion Hs; subst; clear Hs.
      eapply wake_ok_same; [exact Hok | reflexivity|]. intros i x _ Ha.
      by apply (about_to_wake_keep i _ k _ _ Hk).
    + (* a close waker is asserted *)
      destruct (Nat.ltb i (length (dispatchers s))); inversion Hs; subst; clear Hs.
      * unfold Assert_close. destruct (dispatchers s !! i) as [y|] eqn:Hy.
        -- eapply wake_ok_change; [exact Hok | exact Hy | reflexivity | |].
           ++ intros i' Hne Ha. by apply (about_to_wake_keep i' _ k _ _ Hk).
           ++ simpl. intros Hpc Hq. destruct (Hok i y Hy Hpc Hq) as [Hf | Ha]; [by left|].
              right. by apply (about_to_wake_keep i _ k _ _ Hk).
        -- eapply wake_ok_same; [exact Hok | reflexivity|]. intros i' x _ Ha.
           by apply (about_to_wake_keep i' _ k _ _ Hk).
      * eapply wake_ok_same; [exact Hok | reflexivity|]. intros i' x _ Ha.
        by apply (about_to_wake_keep i' _ k _ _ Hk).
    + (* the wait *)
      assert (s1 = s) as -> by (destruct (wg s =? 0); by inversion Hs).
      eapply wake_ok_same; [exact Hok | reflexivity|]. intros i x _ Ha.
      by apply (about_to_wake_keep i _ k _ t' Hk).
  - revert H. unfold dispatchLoop_step.
    destruct (dispatchers s !! i0) as [y|] eqn:Hy; [|discriminate].
    destruct (pc y) eqn:Hpc; try discriminate.
    + destruct (Fetch loop_sleeper (qd y) w) as [q'|] eqn:Hf; [|discriminate].
      apply Fetch_registered in Hf as [[-> | ->] ->]; intros H; inversion H; subst; clear H;
        (eapply wake_ok_change; [exact Hok | exact Hy | reflexivity | done |]);
        simpl; discriminate.
    + destruct (drain _ _ _) as [[[q' u'] b'] flush] eqn:Hd.
      intros H; inversion H; subst; clear H.
      eapply wake_ok_change; [exact Hok | exact Hy | reflexivity | done |].
      simpl. destruct (drain_moves _ _ _ _ _ _ _ Hd) as (taken & _ & _ & Hf).
      destruct flush; [discriminate|]. intros _ Hq. by rewrite Hf in Hq.
    + intros H; inversion H; subst; clear H.
      eapply wake_ok_change; [exact Hok | exact Hy | reflexivity | done |].
      simpl. discriminate.
    + intros H; inversion H; subst; clear H.
      eapply wake_ok_change; [exact Hok | exact Hy | reflexivity | done |].
      simpl. discriminate.
    + rewrite shutdown_drain_spec. intros H; inversion H; subst; clear H.
      eapply wake_ok_change; [exact Hok | exact Hy | reflexivity | done |].
      simpl. discriminate.
Qed.

(** X8: no wake-up is lost.  In every state the system reaches, a loop
    parked in [Fetch] whose queue is not empty has its new-packet waker
    asserted, or the caller that queued a packet is just about to assert
    it: a queued packet is never left behind with the loop asleep. *)
Theorem no_lost_wakeup n queueLen h s0 ls s i x :
  New n queueLen h = Some s0 ->
  run ls s0 = Some s ->
  dispatchers s !! i = Some x ->
  pc x = AtFetch -> queue (qd x) <> [] ->
  newPacketWaker (qd x) = true \/ about_to_wake i (threads s).
Proof.
  intros HN Hr.
  assert (H0 : wake_ok s0).
  { unfold New in HN. destruct (n <? 0); [discriminate|]. inversion HN; subst.
    intros j y Hy _ Hq. simpl in Hy. apply lookup_replicate in Hy as [-> _]. done. }
  clear HN. revert s0 s Hr H0.
  induction ls as [|a ls IH]; intros s0 s Hr H0; simpl in Hr.
  - inversion Hr; subst. apply H0.
  - destruct (exec a s0) as [s1|] eqn:He; [|discriminate].
    eapply IH; [exact Hr|]. by eapply exec_wake_ok.
Qed.

Lemma no_lost_wakeup_witness :
  newPacketWaker (qd wake_worker) = true \/ about_to_wake 0 (threads wake_state).
Proof.
  apply (no_lost_wakeup 1 4 demo_heap demo_init wake_schedule wake_state 0%nat wake_worker).
  - reflexivity.
  - vm_compute. reflexivity.
  - reflexivity.
  - reflexivity.
  - discriminate.
Defined.

Example wake_state_flag : newPacketWaker (qd wake_worker) = false.
Proof. reflexivity. Qed.

(** ** Close signals every shard *)

Lemma signalled_change s s' j y y' i x' :
  dispatchers s !! j = Some y ->
  dispatchers s' = <[j := y']> (dispatchers s) ->
  (signalled y -> signalled y') ->
  dispatchers s' !! i = Some x' ->
  exists x, dispatchers s !! i = Some x /\ (signalled x -> signalled x').
Proof.
  intros Hy Hd Hs Hx'. rewrite Hd in Hx'.
  destruct (decide (i = j)) as [-> | Hne].
  - rewrite list_lookup_insert_eq in Hx' by (by eapply lookup_lt_Some).
    inversion Hx'; subst. eauto.
  - rewrite list_lookup_insert_ne in Hx' by done. eauto.
Qed.

Lemma signalled_same s s' i x' :
  dispatchers s' = dispatchers s ->
  dispatchers s' !! i = Some x' ->
  exists x, dispatchers s !! i = Some x /\ (signalled x -> signalled x').
Proof. intros Hd Hx'. rewrite Hd in Hx'. eauto. Qed.

Lemma thread_step_signalled t s t' s' i x' :
  thread_step t s = Some (t', s') ->
  dispatchers s' !! i = Some x' ->
  exists x, dispatchers s !! i = Some x /\ (signalled x -> signalled x').
Proof.
  intros H. destruct t as [pkt p | p]; destruct p; simpl in H; try discriminate.
  - destruct (closed s =? qDiscClosed); inversion H; subst; by apply signalled_same.
  - revert H. unfold WritePacket_locked.
    destruct (select_shard pkt s) as [[j y]|] eqn:Hsel;
      [|intros H; inversion H; subst; by apply signalled_same].
    apply select_shard_lookup in Hsel.
    destruct (used (qd y) <? limit (qd y)); intros H; inversion H; subst; clear H;
      [|by apply signalled_same].
    eapply signalled_change; [exact Hsel | reflexivity|]. done.
  - inversion H; subst; clear H. unfold Assert_newPacket.
    destruct (dispatchers s !! i0) as [y|] eqn:Hy; [|by apply signalled_same].
    eapply signalled_change; [exact Hy | reflexivity|]. done.
  - inversion H; subst. by apply signalled_same.
  - destruct (Nat.ltb i0 (length (dispatchers s))); inversion H; subst; clear H;
      [|by apply signalled_same].
    unfold Assert_close.
    destruct (dispatchers s !! i0) as [y|] eqn:Hy; [|by apply signalled_same].
    eapply signalled_change; [exact Hy | reflexivity|]. intros _. by left.
  - destruct (wg s =? 0); inversion H; subst. by apply signalled_same.
Qed.

(** Once the signal has reached a loop, it stays. *)
Lemma exec_signalled a s s' i x' :
  exec a s = Some s' ->
  dispatchers s' !! i = Some x' ->
  exists x, dispatchers s !! i = Some x /\ (signalled x -> signalled x').
Proof.
  unfold exec. destruct (aborted s); [discriminate|].
  intros H. destruct a as [pkt | | k | i0 w].
  - inversion H; subst. by apply signalled_same.
  - inversion H; subst. by apply signalled_same.
  - destruct (threads s !! k) as [t|]; [|discriminate].
    destruct (thread_step t s) as [[t' s1]|] eqn:Hs; [|discriminate].
    inversion H; subst; clear H. simpl. by eapply thread_step_signalled.
  - revert H. unfold dispatchLoop_step, signalled, shut_down.
    destruct (dispatchers s !! i0) as [y|] eqn:Hy; [|discriminate].
    destruct (pc y) eqn:Hpc; try discriminate.
    + destruct (Fetch loop_sleeper (qd y) w) as [q'|] eqn:Hf; [|discriminate].
      apply Fetch_registered in Hf as [[-> | ->] ->]; intros H; inversion H; subst; clear H;
        (eapply signalled_change; [exact Hy | reflexivity|]);
        unfold signalled, shut_down; simpl; rewrite Hpc; intuition congruence.
    + destruct (drain _ _ _) as [[[q' u'] b'] flush].
      intros H; inversion H; subst; clear H.
      eapply signalled_change; [exact Hy | reflexivity|].
      unfold signalled, shut_down; simpl; rewrite Hpc. destruct flush; intuition congruence.
    + intros H; inversion H; subst; clear H.
      eapply signalled_change; [exact Hy | reflexivity|].
      unfold signalled, shut_down; simpl; rewrite Hpc; intuition congruence.
    + intros H; inversion H; subst; clear H.
      eapply signalled_change; [exact Hy | reflexivity|].
      unfold signalled, shut_down; simpl; rewrite Hpc; intuition congruence.
    + rewrite shutdown_drain_spec. intros H; inversion H; subst; clear H.
      eapply signalled_change; [exact Hy | reflexivity|].
      unfold signalled, shut_down; simpl; intuition congruence.
Qed.

Lemma Assert_close_signals j s x' :
  dispatchers (Assert_close j s) !! j = Some x' -> signalled x'.
Proof.
  unfold Assert_close. destruct (dispatchers s !! j) as [y|] eqn:Hy; [|congruence].
  unfold_state. rewrite list_lookup_insert_eq by (by eapply lookup_lt_Some).
  intros H; inversion H; subst. by left.
Qed.

Lemma exec_close_ok a s s' : exec a s = Some s' -> close_ok s -> close_ok s'.
Proof.
  intros He Hok k0 p' i x' Hth Hx' Hcov.
  destruct (exec_signalled _ _ _ _ _ He Hx') as (x & Hx & Hsig).
  revert He. unfold exec. destruct (aborted s); [discriminate|].
  destruct a as [pkt | | k | i0 w]; intros He.
  - inversion He; subst; clear He. simpl in Hth.
    apply lookup_app_Some in Hth as [Hth | [_ Hth]].
    + apply Hsig. by eapply Hok.
    + destruct (k0 - length (threads s))%nat as [|m]; simpl in Hth; [|by destruct m].
      discriminate.
  - inversion He; subst; clear He. simpl in Hth.
    apply lookup_app_Some in Hth as [Hth | [_ Hth]].
    + apply Hsig. by eapply Hok.
    + destruct (k0 - length (threads s))%nat as [|m]; simpl in Hth; [|by destruct m].
      inversion Hth; subst. done.
  - destruct (threads s !! k) as [t|] eqn:Hk; [|discriminate].
    destruct (thread_step t s) as [[t' s1]|] eqn:Hs; [|discriminate].
    inversion He; subst; clear He. simpl in Hth, Hx'.
    destruct (thread_step_cases _ _ _ _ Hs) as [Hts _]. rewrite Hts in Hth.
    destruct (decide (k0 = k)) as [-> | Hne].
    + rewrite list_lookup_insert_eq in Hth by (by eapply lookup_lt_Some).
      inversion Hth; subst t'; clear Hth.
      destruct t as [pkt p | p]; destruct p; simpl in Hs; try discriminate;
        try (destruct (closed s =? qDiscClosed); inversion Hs; fail);
        try (destruct (WritePacket_locked pkt s) as [[[j|] s2]|]; inversion Hs; fail);
        try (inversion Hs; fail).
      * (* line 157 *)
        inversion Hs; subst. simpl in Hcov. lia.
      * (* lines 158-160 *)
        destruct (Nat.ltb_spec i0 (length (dispatchers s))) as [Hlt | Hge];
          inversion Hs; subst; clear Hs; simpl in Hcov.
        -- destruct (decide (i = i0)) as [-> | Hne].
           ++ by eapply Assert_close_signals.
           ++ apply Hsig. eapply (Hok k (CL_Assert i0)); [done | done|]. simpl. lia.
        -- apply Hsig. eapply (Hok k (CL_Assert i0)); [done | done|]. simpl.
           apply lookup_lt_Some in Hx. lia.
      * (* line 161 *)
        destruct (wg s =? 0); inversion Hs; subst.
        apply Hsig. by eapply (Hok k CL_Wait).
    + rewrite list_lookup_insert_ne in Hth by done.
      apply Hsig. by eapply Hok.
  - assert (Hts : threads s' = threads s).
    { by destruct (dispatchLoop_step_wg _ _ _ _ He) as (_ & Hts & _). }
    rewrite Hts in Hth. apply Hsig. by eapply Hok.
Qed.

(** X9: when a call of [Close] waits for the loops, or has returned, the
    shutdown signal has reached every shard, in every state the system
    reaches: the close waker of the shard is asserted, or its loop has
    fetched it already. *)
Theorem Close_signals_every_shard n queueLen h s0 ls s k p i x :
  New n queueLen h = Some s0 ->
  run ls s0 = Some s ->
  threads s !! k = Some (In_Close p) ->
  p = CL_Wait \/ p = CL_Done ->
  dispatchers s !! i = Some x ->
  closeWaker (qd x) = true \/ pc x = AtShutdown \/ pc x = Returned.
Proof.
  intros HN Hr Hk Hp Hx.
  assert (H0 : close_ok s0).
  { unfold New in HN. destruct (n <? 0); [discriminate|]. inversion HN; subst.
    intros k' p' i' x' Hth. simpl in Hth. by rewrite lookup_nil in Hth. }
  assert (Hok : close_ok s).
  { clear HN Hk Hx. revert s0 Hr H0.
    induction ls as [|a ls IH]; intros s0 Hr H0; simpl in Hr.
    - by inversion Hr; subst.
    - destruct (exec a s0) as [s1|] eqn:He; [|discriminate].
      eapply IH; [exact Hr|]. by eapply exec_close_ok. }
  assert (Hsig : signalled x).
  { eapply (Hok k p i x Hk Hx). destruct Hp as [-> | ->]; exact I. }
  unfold signalled, shut_down in Hsig. tauto.
Qed.

Lemma Close_signals_every_shard_witness :
  closeWaker (qd waiting_worker) = true \/
  pc waiting_worker = AtShutdown \/ pc waiting_worker = Returned.
Proof.
  apply (Close_signals_every_shard 1 4 demo_heap demo_init waiting_schedule waiting_state
           1%nat CL_Wait 0%nat waiting_worker).
  - reflexivity.
  - vm_compute. reflexivity.
  - reflexivity.
  - by left.
  - reflexivity.
Defined.

(** ** From WritePacket to WritePackets *)

Lemma run_app ls1 : forall ls2 s,
  run (ls1 ++ ls2) s = match run ls1 s with Some s1 => run ls2 s1 | None => None end.
Proof.
  induction ls1 as [|a ls1 IH]; intros ls2 s; simpl; [done|].
  destruct (exec a s); [apply IH | done].
Qed.

Lemma select_shard_ext pkt s s' :
  dispatchers s' = dispatchers s -> select_shard pkt s' = select_shard pkt s.
Proof. intros Hd. unfold select_shard. by rewrite Hd. Qed.

(** A call of [WritePacket] that nothing interrupts, as steps of the
    system: the call is made and its three actions follow. *)
Lemma WritePacket_as_steps pkt s i x :
  aborted s = false ->
  closed s <> qDiscClosed ->
  select_shard pkt s = Some (i, x) ->
  used (qd x) < limit (qd x) ->
  let k := length (threads s) in
  run [Call_WritePacket pkt; Thread k; Thread k; Thread k] s
  = Some (mkState (closed s)
            (<[i := mkWorker (mkQD (limit (qd x)) (PushBack (queue (qd x)) pkt)
                                   (wrap_int (used (qd x) + 1)) true (closeWaker (qd x)))
                             (pc x) (batch x)]> (dispatchers s))
            (wg s) (IncRef pkt (refs s))
            (threads s ++ [In_WritePacket pkt (WP_Done None)])
            (trace s ++ [Enqueued i pkt]) false).
Proof.
  intros Hab Hc Hsel Hlt k.
  pose proof (select_shard_lookup _ _ _ _ Hsel) as Hx.
  assert (Hi : (i < length (dispatchers s))%nat) by (by eapply lookup_lt_Some).
  apply Z.eqb_neq in Hc. apply Z.ltb_lt in Hlt.
  assert (Hk : forall t, (threads s ++ [t]) !! k = Some t).
  { intros t. unfold k. by rewrite list_lookup_middle. }
  assert (Hins : forall t t', <[k := t']> (threads s ++ [t]) = threads s ++ [t']).
  { intros t t'. unfold k. rewrite insert_app_r_alt by lia.
    by rewrite Nat.sub_diag. }
  clearbody k. destruct s as [c d w h ts tr ab]. simpl in *. subst ab.
  unfold exec at 1. simpl. unfold exec at 1. simpl. rewrite Hk. simpl. rewrite Hc.
  unfold_state. rewrite Hins.
  unfold exec at 1. simpl. rewrite Hk. simpl. unfold WritePacket_locked.
  assert (Hsel' : forall ts', select_shard pkt (mkState c d w h ts' tr false) = Some (i, x))
    by (intros ts'; exact Hsel).
  rewrite Hsel'. simpl. rewrite Hlt. unfold_state. rewrite Hins.
  unfold exec at 1. simpl. rewrite Hk. simpl. unfold Assert_newPacket. simpl.
  rewrite list_lookup_insert_eq by done. unfold_state.
  rewrite list_insert_insert_eq, Hins. reflexivity.
Qed.

(** X10: a packet that [WritePacket] accepts while the loop of its shard
    is parked in [Fetch] gets to the transmitter: let the call run, the loop
    wake up on the new-packet waker and run on alone; then the loop parks
    again, having passed to [WritePackets] what was in the queue and then
    the packet, and having released all of them, so that the count of the
    packet is what it was before the call. *)
Theorem accepted_packet_is_transmitted n queueLen h s0 ls s pkt i x :
  is_int queueLen ->
  New n queueLen h = Some s0 ->
  run ls s0 = Some s ->
  closed s <> qDiscClosed ->
  select_shard pkt s = Some (i, x) ->
  used (qd x) < limit (qd x) ->
  pc x = AtFetch ->
  exists sched s',
    run sched s = Some s' /\
    written_of i (trace s') = written_of i (trace s) ++ queue (qd x) ++ [pkt] /\
    released_of i (trace s') = released_of i (trace s) ++ queue (qd x) ++ [pkt] /\
    (forall p, refs s' p = refs s p - occ p (queue (qd x))) /\
    dispatchers s'
    = <[i := mkWorker (mkQD (limit (qd x)) [] 0 false (closeWaker (qd x))) AtFetch []]>
        (dispatchers s) /\
    threads s' = threads s ++ [In_WritePacket pkt (WP_Done None)].
Proof.
  intros Hint HN Hr Hc Hsel Hlt Hpc.
  pose proof (select_shard_lookup _ _ _ _ Hsel) as Hx.
  pose proof (reachable_inv queueLen Hint n h s0 ls s HN Hr) as [Hsh _ Hab].
  destruct (Hsh i x Hx) as [Hlim Hused Hcap Hb _ _ _ _].
  unfold batch_ok in Hb. rewrite Hpc in Hb.
  assert (Hne : dispatchers s <> []) by (intros Hnil; by rewrite Hnil in Hx).
  specialize (Hab Hne).
  assert (Hi : (i < length (dispatchers s))%nat) by (by eapply lookup_lt_Some).
  pose proof (WritePacket_as_steps pkt s i x Hab Hc Hsel Hlt) as H1. cbv zeta in H1.
  set (x1 := mkWorker (mkQD (limit (qd x)) (PushBack (queue (qd x)) pkt)
                            (wrap_int (used (qd x) + 1)) true (closeWaker (qd x)))
                      (pc x) (batch x)) in *.
  set (s1 := mkState (closed s) (<[i := x1]> (dispatchers s)) (wg s) (IncRef pkt (refs s))
                     (threads s ++ [In_WritePacket pkt (WP_Done None)])
                     (trace s ++ [Enqueued i pkt]) false) in *.
  set (x2 := mkWorker (mkQD (limit (qd x)) (PushBack (queue (qd x)) pkt)
                            (wrap_int (used (qd x) + 1)) false (closeWaker (qd x)))
                      AtDrain (batch x)).
  set (s2 := set_worker i x2 s1).
  assert (H2 : exec (Loop i NewPacketWaker) s1 = Some s2).
  { unfold exec, dispatchLoop_step, s1. simpl.
    rewrite list_lookup_insert_eq by done. simpl. rewrite Hpc. reflexivity. }
  assert (Hx2 : dispatchers s2 !! i = Some x2).
  { unfold s2, s1. unfold_state. apply list_lookup_insert_eq. by rewrite length_insert. }
  destruct Hint as [Hlo Hhi]. rewrite max_int_val in Hhi.
  pose proof (Len_nonneg (queue (qd x))) as Hq0.
  assert (Hu2 : used (qd x2) = Len (queue (qd x2))).
  { simpl. unfold PushBack. rewrite Len_app. change (Len [pkt]) with 1.
    rewrite Hused. apply wrap_int_id. unfold is_int. rewrite min_int_val, max_int_val. lia. }
  assert (Hm2 : Len (queue (qd x2)) <= max_int).
  { simpl. unfold PushBack. rewrite Len_app. change (Len [pkt]) with 1.
    rewrite max_int_val. lia. }
  destruct (drain_all i NewPacketWaker (length (queue (qd x2))) s2 x2
              ltac:(lia) eq_refl Hx2 eq_refl Hb Hu2 Hm2)
    as (k & s' & Hrun & Hd' & Hw' & Hr' & Hrefs' & _ & Ht' & _).
  exists ([Call_WritePacket pkt; Thread (length (threads s)); Thread (length (threads s));
           Thread (length (threads s))]
          ++ Loop i NewPacketWaker :: replicate k (Loop i NewPacketWaker)), s'.
  split.
  { rewrite run_app, H1. simpl. rewrite H2. exact Hrun. }
  split.
  { rewrite Hw'. unfold s2, s1. unfold_state. rewrite written_of_app.
    unfold PushBack. simpl. by rewrite app_nil_r. }
  split.
  { rewrite Hr'. unfold s2, s1. unfold_state. rewrite released_of_app.
    unfold PushBack. simpl. by rewrite app_nil_r. }
  split.
  { intros p. rewrite Hrefs'. unfold s2, s1. unfold_state. unfold PushBack.
    rewrite IncRef_at, occ_app. lia. }
  split.
  { rewrite Hd'. unfold s2, s1. unfold_state. by rewrite !list_insert_insert_eq. }
  rewrite Ht'. reflexivity.
Qed.

Lemma accepted_packet_is_transmitted_witness :
  exists sched s',
    run sched wake_state = Some s' /\
    written_of 0 (trace s')
    = written_of 0 (trace wake_state) ++ queue (qd wake_worker) ++ [demo_pkt 2] /\
    released_of 0 (trace s')
    = released_of 0 (trace wake_state) ++ queue (qd wake_worker) ++ [demo_pkt 2] /\
    (forall p, refs s' p = refs wake_state p - occ p (queue (qd wake_worker))) /\
    dispatchers s'
    = <[0%nat := mkWorker (mkQD (limit (qd wake_worker)) [] 0 false
                             (closeWaker (qd wake_worker))) AtFetch []]>
        (dispatchers wake_state) /\
    threads s' = threads wake_state ++ [In_WritePacket (demo_pkt 2) (WP_Done None)].
Proof.
  apply (accepted_packet_is_transmitted 1 4 demo_heap demo_init wake_schedule wake_state
           (demo_pkt 2) 0%nat wake_worker is_int_4).
  - reflexivity.
  - vm_compute. reflexivity.
  - discriminate.
  - reflexivity.
  - simpl. lia.
  - reflexivity.
Defined.

(** ** FIFO within a shard *)












(** In the settled scenario the four accepted packets have all been handed
    over, in the order of their calls. *)
Example settled_all_written :
  enqueued_of 0 (trace settled_state)
  = [demo_pkt 1; demo_pkt 2; demo_pkt 3; demo_pkt 4]
  /\ written_of 0 (trace settled_state)
     = [demo_pkt 1; demo_pkt 2; demo_pkt 3; demo_pkt 4]
  /\ pc settled_worker = AtFetch
  /\ newPacketWaker (qd settled_worker) = false
  /\ dispatchers settled_state = [settled_worker].
Proof. repeat split; reflexivity. Qed.
